(** * FindDuplicates: a shallow embedding of [find_duplicates.py]

    The development follows the source top to bottom: the library
    functions the program calls ([hashlib.sha256], [os.path.join],
    [open]/[read], [os.walk], [os.path.getsize], the thread pool), then the
    class [FileDuplicateFinder] with its methods, then [main], and finally
    the properties of the scan. *)

From Stdlib Require Import ZArith Strings.String Strings.Ascii Strings.Byte.
From stdpp Require Import gmap strings list fin_maps sorting pretty.

(** ** hashlib.sha256

    FIPS 180-4 SHA-256 over 32-bit words kept in [Z]; every addition wraps
    modulo [2^32]. *)
Module SHA256.
Local Open Scope Z_scope.

Definition add32 (x y : Z) : Z := (x + y) mod 2 ^ 32.
Definition rotr (n x : Z) : Z :=
  Z.lor (Z.shiftr x n) (Z.land (Z.shiftl x (32 - n)) 0xffffffff).
Definition Ch (x y z : Z) : Z :=
  Z.lxor (Z.land x y) (Z.land (Z.lxor x 0xffffffff) z).
Definition Maj (x y z : Z) : Z :=
  Z.lxor (Z.lxor (Z.land x y) (Z.land x z)) (Z.land y z).
Definition Sigma0 (x : Z) : Z := Z.lxor (Z.lxor (rotr 2 x) (rotr 13 x)) (rotr 22 x).
Definition Sigma1 (x : Z) : Z := Z.lxor (Z.lxor (rotr 6 x) (rotr 11 x)) (rotr 25 x).
Definition sigma0 (x : Z) : Z := Z.lxor (Z.lxor (rotr 7 x) (rotr 18 x)) (Z.shiftr x 3).
Definition sigma1 (x : Z) : Z := Z.lxor (Z.lxor (rotr 17 x) (rotr 19 x)) (Z.shiftr x 10).

(** The constants are derived from the first primes, as the standard
    defines them: the first 32 bits of the fractional part of the cube
    root (for [K]) and of the square root (for [H0]) of each prime. *)
Definition is_prime (n : Z) : bool :=
  (1 <? n) && forallb (fun d => negb (n mod d =? 0)) (seqZ 2 (n - 2)).

Definition primes (count : nat) (bound : Z) : list Z :=
  take count (List.filter is_prime (seqZ 2 bound)).

(** The integer cube root of [x], found bit by bit below bit [bits]. *)
Fixpoint icbrt (bits : nat) (x root : Z) : Z :=
  match bits with
  | O => root
  | S bits' =>
      let candidate := root + 2 ^ Z.of_nat bits' in
      icbrt bits' x (if candidate * candidate * candidate <=? x then candidate else root)
  end.

Definition frac_cbrt32 (p : Z) : Z := icbrt 40 (p * 2 ^ 96) 0 mod 2 ^ 32.
Definition frac_sqrt32 (p : Z) : Z := Z.sqrt (p * 2 ^ 64) mod 2 ^ 32.

Definition K : list Z := Eval vm_compute in map frac_cbrt32 (primes 64 400).

Record state := State { ha : Z; hb : Z; hc : Z; hd : Z; he : Z; hf : Z; hg : Z; hh : Z }.

Definition H0 : state :=
  Eval vm_compute in
    match map frac_sqrt32 (primes 8 20) with
    | [a; b; c; d; e; f; g; h] => State a b c d e f g h
    | _ => State 0 0 0 0 0 0 0 0
    end.

Definition be64 (n : Z) : list Z :=
  map (fun i => Z.land (Z.shiftr n (8 * i)) 0xff) [7; 6; 5; 4; 3; 2; 1; 0].

Definition pad (msg : list Z) : list Z :=
  let len := Z.of_nat (length msg) in
  msg ++ [0x80] ++ replicate (Z.to_nat ((55 - len) mod 64)) 0 ++ be64 (8 * len).

Fixpoint words (bs : list Z) : list Z :=
  match bs with
  | b0 :: b1 :: b2 :: b3 :: rest =>
      Z.lor (Z.lor (Z.shiftl b0 24) (Z.shiftl b1 16)) (Z.lor (Z.shiftl b2 8) b3) :: words rest
  | _ => []
  end.

Fixpoint schedule (n : nat) (w : list Z) : list Z :=
  match n with
  | O => w
  | S n' =>
      let t := length w in
      let at_ k := nth (t - k) w 0 in
      schedule n' (w ++ [add32 (add32 (sigma1 (at_ 2%nat)) (at_ 7%nat))
                               (add32 (sigma0 (at_ 15%nat)) (at_ 16%nat))])
  end.

Definition round (s : state) (kw : Z * Z) : state :=
  let '(k, w) := kw in
  let t1 := add32 (add32 (add32 (hh s) (Sigma1 (he s))) (add32 (Ch (he s) (hf s) (hg s)) k)) w in
  let t2 := add32 (Sigma0 (ha s)) (Maj (ha s) (hb s) (hc s)) in
  State (add32 t1 t2) (ha s) (hb s) (hc s) (add32 (hd s) t1) (he s) (hf s) (hg s).

Definition compress (h : state) (block : list Z) : state :=
  let s := foldl round h (combine K (schedule 48 block)) in
  State (add32 (ha h) (ha s)) (add32 (hb h) (hb s)) (add32 (hc h) (hc s)) (add32 (hd h) (hd s))
        (add32 (he h) (he s)) (add32 (hf h) (hf s)) (add32 (hg h) (hg s)) (add32 (hh h) (hh s)).

Fixpoint blocks (n : nat) (ws : list Z) : list (list Z) :=
  match n with
  | O => []
  | S n' => take 16 ws :: blocks n' (drop 16 ws)
  end.

Definition digest_state (msg : list Z) : state :=
  let ws := words (pad msg) in
  foldl compress H0 (blocks (length ws / 16) ws).

Definition hexdigit (n : Z) : ascii :=
  nth (Z.to_nat n) (list_ascii_of_string "0123456789abcdef") "0"%char.

Definition hex32 (w : Z) (rest : string) : string :=
  foldr (fun i acc => String (hexdigit (Z.land (Z.shiftr w i) 0xf)) acc) rest
        [28; 24; 20; 16; 12; 8; 4; 0].

Definition hex_of_state (s : state) : string :=
  hex32 (ha s) (hex32 (hb s) (hex32 (hc s) (hex32 (hd s)
    (hex32 (he s) (hex32 (hf s) (hex32 (hg s) (hex32 (hh s) ""))))))).

(** The digest of a byte string, as 64 lowercase hexadecimal digits. *)
Definition hexdigest (msg : list byte) : string :=
  hex_of_state (digest_state (map (fun b => Z.of_N (Byte.to_N b)) msg)).

End SHA256.

(** ** Python values the program manipulates *)

(** The exception classes that matter to the program, with the class
    hierarchy of the built-in exceptions. *)
Inductive exc_class :=
  | BaseException | Exception | OSError | PermissionError
  | FileNotFoundError | IsADirectoryError | ValueError
  | ArithmeticError | OverflowError | MemoryError.

Definition exc_base (c : exc_class) : option exc_class :=
  match c with
  | BaseException => None
  | Exception => Some BaseException
  | OSError | ValueError | ArithmeticError | MemoryError => Some Exception
  | OverflowError => Some ArithmeticError
  | PermissionError | FileNotFoundError | IsADirectoryError => Some OSError
  end.

Global Instance exc_class_eq_dec : EqDecision exc_class.
Proof. solve_decision. Defined.

Fixpoint issubclass_fuel (fuel : nat) (c d : exc_class) : bool :=
  bool_decide (c = d) ||
  match fuel, exc_base c with
  | S fuel', Some b => issubclass_fuel fuel' b d
  | _, _ => false
  end.

(** The hierarchy above has depth 4. *)
Definition issubclass (c d : exc_class) : bool := issubclass_fuel 4 c d.

Record exception := mk_exception { exc_type : exc_class; exc_str : string }.

Definition isinstance (e : exception) (c : exc_class) : bool :=
  issubclass (exc_type e) c.

(** A computation either returns a value or raises. *)
Inductive result (A : Type) :=
  | Return (a : A)
  | Raise (e : exception).
Arguments Return {A} a.
Arguments Raise {A} e.

Global Instance result_ret : MRet result := λ A a, Return a.
Global Instance result_bind : MBind result := λ A B k r,
  match r with
  | Return a => k a
  | Raise e => Raise e
  end.

(** Records written by [self.logger]. *)
Inductive log_level := INFO | WARNING | ERROR.
Definition log_record : Type := log_level * string.

(** Truth value of an [Optional[str]]: [None] and [''] are false. *)
Definition truthy_str (o : option string) : bool :=
  match o with
  | Some (String _ _) => true
  | _ => false
  end.

(** Truth value of a [bytes] object. *)
Definition truthy_bytes (b : list byte) : bool :=
  match b with
  | [] => false
  | _ :: _ => true
  end.

(** [pattern in filename] on [str]: [pattern] occurs as a contiguous
    substring.  Strings are kept as their UTF-8 bytes; on well-formed UTF-8
    this is the same test as on code points. *)
Fixpoint str_in (pattern s : string) : bool :=
  String.prefix pattern s ||
  match s with
  | EmptyString => false
  | String _ s' => str_in pattern s'
  end.

(** ** The operating system *)

(** Failures of system calls.  CPython raises the subclass of [OSError]
    selected by [errno]. *)
Inductive errno := EPERM | EACCES | ENOENT | EISDIR | EIO | ENOTDIR | ELOOP.

Global Instance errno_eq_dec : EqDecision errno.
Proof. solve_decision. Defined.

Record os_error := mk_os_error { err_no : errno; err_str : string }.

Definition class_of_errno (n : errno) : exc_class :=
  match n with
  | EPERM | EACCES => PermissionError
  | ENOENT => FileNotFoundError
  | EISDIR => IsADirectoryError
  | EIO | ENOTDIR | ELOOP => OSError
  end.

Definition os_exception (e : os_error) : exception :=
  mk_exception (class_of_errno (err_no e)) (err_str e).

(** A file opened with mode ['rb']: the bytes still to be read, and
    possibly a fault: [Some (k, e)] makes the first [k] calls of [read]
    succeed and the next one fail with [e]. *)
Record file_obj := mk_file { f_data : list byte; f_fault : option (nat * os_error) }.

(** [f.read(n)] on a buffered binary file: the next [n] bytes, fewer only
    at end of file.  [n] is a size whose buffer the runtime can allocate,
    as 8192 in the scan; [calculate_hash_call] below covers the others. *)
Definition f_read (f : file_obj) (n : nat) : result (list byte * file_obj) :=
  match f_fault f with
  | Some (O, e) => Raise (os_exception e)
  | Some (S k, e) => Return (take n (f_data f), mk_file (drop n (f_data f)) (Some (k, e)))
  | None => Return (take n (f_data f), mk_file (drop n (f_data f)) None)
  end.

(** What the program observes of the file system during one scan: what
    [os.walk] has yielded when it completes, and the outcome of the system
    calls on a path.  The files are regular files; the paths are those
    the walk yields, which hold no NUL character. *)
Record filesystem := mk_fs {
  os_path_abspath : string → string;
  os_walk : string → list (string * list string * list string);
  os_path_getsize : string → os_error + Z;
  open_rb : string → os_error + file_obj
}.

(** [os.path.join(a, b)] of [posixpath]. *)
Fixpoint endswith_sep (s : string) : bool :=
  match s with
  | EmptyString => false
  | String c EmptyString => bool_decide (c = "/"%char)
  | String _ s' => endswith_sep s'
  end.

Definition os_path_join (a b : string) : string :=
  if String.prefix "/" b then b
  else if bool_decide (a = "") || endswith_sep a then a +:+ b
  else a +:+ "/" +:+ b.

(** ** concurrent.futures.ThreadPoolExecutor

    The tasks of [executor.map(f, xs)] finish in an order chosen by the
    scheduler.  [sched] is that choice: the task indices in [sched], in
    order and without repetition, finish first, and the remaining tasks
    finish after them. *)
Definition completion_order (n : nat) (sched : list nat) : list nat :=
  let first := remove_dups (filter (λ i, i < n) sched) in
  first ++ list_difference (seq 0 n) first.

Definition index_le {B} (p q : nat * B) : Prop := p.1 ≤ q.1.

Global Instance index_le_dec {B} (p q : nat * B) : Decision (index_le p q).
Proof. unfold index_le. apply _. Defined.

(** [executor.map(f, xs)], consumed by [list(...)] after the [with] block
    has waited for every task: the results are handed out by submission
    index, the log records appear in completion order. *)
Definition executor_map {A B} (f : A → B * list log_record) (xs : list A)
    (sched : list nat) : list B * list log_record :=
  let completed :=
    omap (λ i, (λ x, (i, f x)) <$> xs !! i) (completion_order (length xs) sched) in
  (map (λ c, c.2.1) (merge_sort index_le completed),
   concat (map (λ c, c.2.2) completed)).

(** [future.result()] re-raises the exception of its task; [list(...)]
    stops at the first one. *)
Fixpoint results_of {A} (rs : list (result A)) : result (list A) :=
  match rs with
  | [] => Return []
  | r :: rs' => a ← r; l ← results_of rs'; mret (a :: l)
  end.

(** ** class FileDuplicateFinder *)

Record FileDuplicateFinder := mk_finder {
  directory : string;
  ignore_patterns : list string;
  min_file_size : Z
}.

(** [x or []] for an optional list. *)
Definition or_empty (x : option (list string)) : list string :=
  match x with
  | Some (p :: ps) => p :: ps
  | _ => []
  end.

(** [__init__(self, directory, ignore_patterns=None, min_file_size=1)];
    an argument the caller leaves out is [None] here.  The logging set-up
    has no effect on the scan. *)
Definition __init__ (fs : filesystem) (directory : string)
    (ignore_patterns : option (list string)) (min_file_size : option Z)
    : FileDuplicateFinder :=
  {| directory := os_path_abspath fs directory;
     ignore_patterns := or_empty ignore_patterns;
     min_file_size := default 1%Z min_file_size |}.

(** [any(pattern in filename for pattern in self.ignore_patterns)] *)
Definition _should_ignore_file (self : FileDuplicateFinder) (filename : string) : bool :=
  existsb (λ pattern, str_in pattern filename) (ignore_patterns self).

(** The [hashlib] object: [update] calls are equivalent to one call on the
    concatenation of their arguments, so the object is the bytes fed so
    far. *)
Definition hasher : Type := list byte.
Definition sha256_new : hasher := [].
Definition update (h : hasher) (chunk : list byte) : hasher := h ++ chunk.
Definition hexdigest (h : hasher) : string := SHA256.hexdigest h.
Arguments SHA256.hexdigest : simpl never.
Arguments hexdigest : simpl never.

(** [while chunk := f.read(chunk_size): hasher.update(chunk)].  [fuel]
    bounds the number of iterations; [read_loop_fuel] below shows that the
    bound used by [hash_body] is never reached. *)
Fixpoint read_loop (fuel : nat) (f : file_obj) (chunk_size : nat) (h : hasher)
    : result hasher :=
  match fuel with
  | O => Return h
  | S fuel' =>
      match f_read f chunk_size with
      | Raise e => Raise e
      | Return (chunk, f') =>
          if truthy_bytes chunk
          then read_loop fuel' f' chunk_size (update h chunk)
          else Return h
      end
  end.

(** The body of the [try] in [calculate_hash]. *)
Definition hash_body (fs : filesystem) (file_path : string) (chunk_size : nat)
    : result string :=
  match open_rb fs file_path with
  | inl e => Raise (os_exception e)
  | inr f =>
      h ← read_loop (S (length (f_data f))) f chunk_size sha256_new;
      mret (hexdigest h)
  end.

Definition default_chunk_size : nat := 8 * 1024.
Arguments default_chunk_size : simpl never.

(** [calculate_hash(self, file_path, chunk_size=8192)], with the records
    it logs.  The [except] clauses are tried in order. *)
Definition calculate_hash (fs : filesystem) (self : FileDuplicateFinder)
    (file_path : string) (chunk_size : nat)
    : result (option string) * list log_record :=
  match hash_body fs file_path chunk_size with
  | Return digest => (Return (Some digest), [])
  | Raise e =>
      if isinstance e PermissionError then
        (Return None, [(WARNING, "Нет доступа к файлу: " +:+ file_path)])
      else if isinstance e OSError then
        (Return None,
         [(ERROR, "Ошибка при чтении файла " +:+ file_path +:+ ": " +:+ exc_str e)])
      else (Raise e, [])
  end.

(** The [except] clauses of [calculate_hash] on their own, applied to an
    exception raised in the [try]. *)
Definition except_clauses (self : FileDuplicateFinder) (file_path : string)
    (e : exception) : result (option string) * list log_record :=
  if isinstance e PermissionError then
    (Return None, [(WARNING, "Нет доступа к файлу: " +:+ file_path)])
  else if isinstance e OSError then
    (Return None,
     [(ERROR, "Ошибка при чтении файла " +:+ file_path +:+ ": " +:+ exc_str e)])
  else (Raise e, []).

(** What the file-system record leaves out.  Whether the buffer of a
    [read(n)] can be allocated ([OverflowError] for an [n] that does not
    fit the buffer size, [MemoryError] below that when memory is short);
    whether [sys.stdout] takes a line after the lines written so far
    ([UnicodeEncodeError] for a name the console encoding cannot
    represent, [BrokenPipeError] on a closed pipe); and the paths that are
    no regular files: a FIFO without writer, on which [open] waits, and a
    device such as [/dev/zero], whose [read(n)] never comes back empty for
    a positive [n] (of such a path [open_rb] tells only whether opening
    is refused); and whether [os.path.abspath] fails on the directory of
    the command line, as it does for a relative one when the current
    directory is gone. *)
Record runtime := mk_runtime {
  alloc_error : N → option exception;
  stdout_error : list string → string → option exception;
  open_blocks : string → bool;
  endless : string → bool;
  abspath_error : string → option os_error
}.

Definition has_nul (s : string) : bool := str_in (String "000"%char "") s.

(** [self.calculate_hash(file_path, chunk_size)] as any caller may invoke
    it, with any path (a [string] is the byte sequence of the path in the
    file-system encoding) and any non-negative [int]; [None] when the call
    does not return.  [open] refuses a path with a NUL character before
    the system is asked ([ValueError]); the first [read] of an opened
    file allocates its buffer.  Both exceptions go through the [except]
    clauses like any other. *)
Definition calculate_hash_call (rt : runtime) (fs : filesystem)
    (self : FileDuplicateFinder) (file_path : string) (chunk_size : N)
    : option (result (option string) * list log_record) :=
  if has_nul file_path then
    Some (except_clauses self file_path (mk_exception ValueError "embedded null byte"))
  else
    match open_rb fs file_path with
    | inl err => Some (except_clauses self file_path (os_exception err))
    | inr _ =>
        if open_blocks rt file_path then None
        else
          match alloc_error rt chunk_size with
          | Some e => Some (except_clauses self file_path e)
          | None =>
              if endless rt file_path && (0 <? chunk_size)%N then None
              else Some (calculate_hash fs self file_path (N.to_nat chunk_size))
          end
    end.

(** The inner loop [for filename in files] of the directory walk. *)
Fixpoint scan_files (fs : filesystem) (self : FileDuplicateFinder) (root : string)
    (files : list string) (files_to_check : list string) : result (list string) :=
  match files with
  | [] => Return files_to_check
  | filename :: files' =>
      let file_path := os_path_join root filename in
      match os_path_getsize fs file_path with
      | inl e => Raise (os_exception e)
      | inr size =>
          if (min_file_size self <=? size)%Z && negb (_should_ignore_file self filename)
          then scan_files fs self root files' (files_to_check ++ [file_path])
          else scan_files fs self root files' files_to_check
      end
  end.

(** The outer loop [for root, _, files in os.walk(self.directory)]. *)
Fixpoint scan_walk (fs : filesystem) (self : FileDuplicateFinder)
    (walk : list (string * list string * list string))
    (files_to_check : list string) : result (list string) :=
  match walk with
  | [] => Return files_to_check
  | (root, _, files) :: walk' =>
      ftc ← scan_files fs self root files files_to_check;
      scan_walk fs self walk' ftc
  end.

(** One iteration of the grouping loop on the [defaultdict(list)]. *)
Definition group_step (file_hashes : gmap string (list string))
    (item : string * option string) : gmap string (list string) :=
  let '(file_path, file_hash) := item in
  if truthy_str file_hash then
    match file_hash with
    | Some h => <[h := default [] (file_hashes !! h) ++ [file_path]]> file_hashes
    | None => file_hashes
    end
  else file_hashes.

(** [find_duplicate_files(self)], with the records logged meanwhile. *)
Definition find_duplicate_files (fs : filesystem) (self : FileDuplicateFinder)
    (sched : list nat) : result (gmap string (list string)) * list log_record :=
  match scan_walk fs self (os_walk fs (directory self)) [] with
  | Raise e => (Raise e, [])
  | Return files_to_check =>
      let '(futures, log) :=
        executor_map (λ p, calculate_hash fs self p default_chunk_size)
                     files_to_check sched in
      match results_of futures with
      | Raise e => (Raise e, log)
      | Return hash_results =>
          let file_hashes := foldl group_step ∅ (zip files_to_check hash_results) in
          (Return (filter (λ kv, 1 < length kv.2) file_hashes), log)
      end
  end.

(** ** main *)

(** The command line after [argparse]: [--ignore] and [--min-size] are
    optional. *)
Record command_line := mk_command_line {
  cl_directory : string;
  cl_ignore : option (list string);
  cl_min_size : option Z
}.

Record namespace := mk_namespace {
  args_directory : string;
  args_ignore : option (list string);
  args_min_size : Z
}.

(** [parser.parse_args()]: [--min-size] has [default=1024], [--ignore] has
    no default. *)
Definition parse_args (cl : command_line) : namespace :=
  {| args_directory := cl_directory cl;
     args_ignore := cl_ignore cl;
     args_min_size := default 1024%Z (cl_min_size cl) |}.

(** The [finder] that [main] builds. *)
Definition main_finder (fs : filesystem) (cl : command_line) : FileDuplicateFinder :=
  let args := parse_args cl in
  __init__ fs (args_directory args) (Some (or_empty (args_ignore args)))
           (Some (args_min_size args)).

(** The value of [duplicates] in [main]. *)
Definition main_duplicates (fs : filesystem) (cl : command_line) (sched : list nat)
    : result (gmap string (list string)) * list log_record :=
  find_duplicate_files fs (main_finder fs cl) sched.

(** ** The result in insertion order

    A Python [dict] iterates in insertion order, which the report of
    [print_duplicates] shows.  The same method on an ordered dictionary:
    a list of items with distinct keys, new keys at the end. *)

(** [od[k].append(p)] on a [defaultdict(list)]. *)
Fixpoint od_append (od : list (string * list string)) (k p : string)
    : list (string * list string) :=
  match od with
  | [] => [(k, [p])]
  | (k', v) :: od' =>
      if decide (k' = k) then (k', v ++ [p]) :: od'
      else (k', v) :: od_append od' k p
  end.

Definition group_step_ordered (file_hashes : list (string * list string))
    (item : string * option string) : list (string * list string) :=
  let '(file_path, file_hash) := item in
  if truthy_str file_hash then
    match file_hash with
    | Some h => od_append file_hashes h file_path
    | None => file_hashes
    end
  else file_hashes.

Definition find_duplicate_files_ordered (fs : filesystem) (self : FileDuplicateFinder)
    (sched : list nat) : result (list (string * list string)) * list log_record :=
  match scan_walk fs self (os_walk fs (directory self)) [] with
  | Raise e => (Raise e, [])
  | Return files_to_check =>
      let '(futures, log) :=
        executor_map (λ p, calculate_hash fs self p default_chunk_size)
                     files_to_check sched in
      match results_of futures with
      | Raise e => (Raise e, log)
      | Return hash_results =>
          let file_hashes :=
            foldl group_step_ordered [] (zip files_to_check hash_results) in
          (Return (filter (λ kv, 1 < length kv.2) file_hashes), log)
      end
  end.

(** ** print_duplicates *)

(** [sum(os.path.getsize(path) for path in file_paths)], from the left. *)
Fixpoint sum_sizes (fs : filesystem) (file_paths : list string) (acc : Z) : result Z :=
  match file_paths with
  | [] => Return acc
  | path :: rest =>
      match os_path_getsize fs path with
      | inl e => Raise (os_exception e)
      | inr size => sum_sizes fs rest (acc + size)%Z
      end
  end.

(** [num / den] rounded to the nearest integer, ties to the even one
    ([0 <= num], [0 < den]). *)
Definition round_half_even (num den : Z) : Z :=
  let q := (num / den)%Z in
  let r := (num mod den)%Z in
  if (den <? 2 * r)%Z || ((2 * r =? den)%Z && Z.odd q) then (q + 1)%Z else q.

(** The integer [n >= 0] as a double: 53 significant bits, ties to even. *)
Definition round53 (n : Z) : Z :=
  let bits := (Z.log2 n + 1)%Z in
  if (bits <=? 53)%Z then n
  else let s := (bits - 53)%Z in (round_half_even n (2 ^ s) * 2 ^ s)%Z.

Definition two_digits (n : Z) : string :=
  (if (n <? 10)%Z then "0" else "") +:+ pretty (Z.to_N n).

(** [f"{total_size / (1024 * 1024):.2f}"].  The true division gives the
    double nearest to the quotient; dividing by a power of two is exact,
    so that double is [round53 |total_size| / 2^20].  The format rounds it
    to hundredths, ties to even.  (Sizes are far below the range where
    the division overflows.) *)
Definition hundredths_mb (total_size : Z) : Z :=
  round_half_even (100 * round53 (Z.abs total_size)) (1024 * 1024).

Definition format_mb (total_size : Z) : string :=
  let h := hundredths_mb total_size in
  (if (total_size <? 0)%Z then "-" else "")
  +:+ pretty (Z.to_N (h / 100)) +:+ "." +:+ two_digits (h mod 100).

Definition newline : string := String "010"%char "".

(** What the loop body prints for group number [i]: one string for each
    call of [print]. *)
Definition group_lines (i : nat) (hash_val : string) (file_paths : list string)
    (total_size : Z) : list string :=
  [ newline +:+ "📁 Группа " +:+ pretty i +:+ ":";
    "   Хеш: " +:+ hash_val;
    "   Размер группы: " +:+ pretty (length file_paths) +:+ " файлов";
    "   Общий размер: " +:+ format_mb total_size +:+ " МБ" ]
  ++ ((λ path, "   - " +:+ path) <$> file_paths).

(** [print(line)], with the lines printed so far. *)
Definition print_line (rt : runtime) (out : list string) (line : string)
    : result () * list string :=
  match stdout_error rt out line with
  | Some e => (Raise e, out)
  | None => (Return (), out ++ [line])
  end.

(** Calls of [print] in sequence; the first that fails ends them. *)
Fixpoint print_lines (rt : runtime) (out : list string) (lines : list string)
    : result () * list string :=
  match lines with
  | [] => (Return (), out)
  | line :: rest =>
      match print_line rt out line with
      | (Raise e, out') => (Raise e, out')
      | (Return _, out') => print_lines rt out' rest
      end
  end.

(** [for i, (hash_val, file_paths) in enumerate(duplicates.items(), i)],
    with the lines printed so far.  The sizes are summed before the first
    line of the group is printed. *)
Fixpoint print_groups (rt : runtime) (fs : filesystem) (i : nat)
    (items : list (string * list string)) (out : list string)
    : result () * list string :=
  match items with
  | [] => (Return (), out)
  | (hash_val, file_paths) :: rest =>
      match sum_sizes fs file_paths 0 with
      | Raise e => (Raise e, out)
      | Return total_size =>
          match print_lines rt out (group_lines i hash_val file_paths total_size) with
          | (Raise e, out') => (Raise e, out')
          | (Return _, out') => print_groups rt fs (S i) rest out'
          end
      end
  end.

(** [print_duplicates(self, duplicates)]: the outcome, the records logged
    and the lines printed. *)
Definition print_duplicates (rt : runtime) (fs : filesystem)
    (self : FileDuplicateFinder) (duplicates : list (string * list string))
    : result () * list log_record * list string :=
  match duplicates with
  | [] => (Return (), [(INFO, "Дубликаты не найдены.")], [])
  | _ :: _ =>
      let '(r, out) := print_groups rt fs 1 duplicates [] in
      (r, [(INFO, "Найдено " +:+ pretty (length duplicates) +:+ " групп дубликатов:")], out)
  end.

(** ** main, as a whole *)

(** How a run of [main] ends: it returns, [sys.exit] ends it, or an
    exception leaves it (one that is no [Exception], or one raised in the
    handler). *)
Inductive exit :=
  | Returns
  | SystemExit (code : Z)
  | Uncaught (e : exception).

(** [except Exception as e: print(...); sys.exit(1)] *)
Definition main_handler (rt : runtime) (e : exception) (log : list log_record)
    (out : list string) : exit * list log_record * list string :=
  if isinstance e Exception then
    match print_line rt out ("Произошла ошибка: " +:+ exc_str e) with
    | (Raise e', out') => (Uncaught e', log, out')
    | (Return _, out') => (SystemExit 1, log, out')
    end
  else (Uncaught e, log, out).

(** [finder.find_duplicate_files()] as [main] runs it, with the result in
    the insertion order of the dictionary.  The tasks of the pool are
    calls of [calculate_hash]; the [with] block waits for all of them, so
    the scan does not return ([None]) when one of them does not. *)
Definition find_duplicate_files_call (rt : runtime) (fs : filesystem)
    (self : FileDuplicateFinder) (sched : list nat)
    : option (result (list (string * list string)) * list log_record) :=
  match scan_walk fs self (os_walk fs (directory self)) [] with
  | Raise e => Some (Raise e, [])
  | Return files_to_check =>
      tasks ← mapM (λ p, calculate_hash_call rt fs self p 8192) files_to_check;
      let '(futures, log) := executor_map id tasks sched in
      match results_of futures with
      | Raise e => Some (Raise e, log)
      | Return hash_results =>
          let file_hashes :=
            foldl group_step_ordered [] (zip files_to_check hash_results) in
          Some (Return (filter (λ kv, 1 < length kv.2) file_hashes), log)
      end
  end.

(** [main()], after [parse_args] has accepted the command line; [None]
    when it does not end. *)
Definition main (rt : runtime) (fs : filesystem) (cl : command_line) (sched : list nat)
    : option (exit * list log_record * list string) :=
  match abspath_error rt (cl_directory cl) with
  | Some err => Some (main_handler rt (os_exception err) [] [])
  | None =>
      let finder := main_finder fs cl in
      match find_duplicate_files_call rt fs finder sched with
      | None => None
      | Some (Raise e, log) => Some (main_handler rt e log [])
      | Some (Return duplicates, log) =>
          match print_duplicates rt fs finder duplicates with
          | (Raise e, log', out) => Some (main_handler rt e (log ++ log') out)
          | (Return _, log', out) => Some (Returns, log ++ log', out)
          end
      end
  end.

(** ** Notions derived from the program

    Abbreviations used to state what the scan computes. *)

(** The hash that the scan records for a path ([None]: the file could not
    be read). *)
Definition file_hash (fs : filesystem) (self : FileDuplicateFinder) (p : string)
    : option string :=
  match (calculate_hash fs self p default_chunk_size).1 with
  | Return o => o
  | Raise _ => None
  end.

(** The files in the order the walk discovers them, each with the
    directory it was listed in. *)
Definition entries (walk : list (string * list string * list string))
    : list (string * string) :=
  walk ≫= λ '(root, _, files), (λ filename, (root, filename)) <$> files.

Definition entry_path (e : string * string) : string := os_path_join e.1 e.2.

(** The test of the [if] in the walk, for an entry whose size is known. *)
Definition passes_filter (fs : filesystem) (self : FileDuplicateFinder)
    (e : string * string) : bool :=
  match os_path_getsize fs (entry_path e) with
  | inr size => (min_file_size self <=? size)%Z && negb (_should_ignore_file self e.2)
  | inl _ => false
  end.

(** The two nested loops, as one loop over [entries]. *)
Fixpoint scan_entries (fs : filesystem) (self : FileDuplicateFinder)
    (es : list (string * string)) (files_to_check : list string)
    : result (list string) :=
  match es with
  | [] => Return files_to_check
  | e :: es' =>
      match os_path_getsize fs (entry_path e) with
      | inl err => Raise (os_exception err)
      | inr _ =>
          scan_entries fs self es'
            (if passes_filter fs self e then files_to_check ++ [entry_path e]
             else files_to_check)
      end
  end.

(** The candidates with hash [h], in the order of the candidate list. *)
Definition bucket (fs : filesystem) (self : FileDuplicateFinder)
    (files : list string) (h : string) : list string :=
  filter (λ p, file_hash fs self p = Some h) files.

(** The mapping built from a candidate list by the grouping loop and the
    final comprehension. *)
Definition groups_of (fs : filesystem) (self : FileDuplicateFinder)
    (files : list string) : gmap string (list string) :=
  filter (λ kv, 1 < length kv.2)
         (foldl group_step ∅ (zip files (file_hash fs self <$> files))).

(** The candidate list of a scan whose walk succeeds. *)
Definition candidates (fs : filesystem) (self : FileDuplicateFinder) : list string :=
  entry_path <$>
    filter (λ e, passes_filter fs self e) (entries (os_walk fs (directory self))).

(** The result read as a mapping from fingerprints to sets of paths. *)
Definition as_sets (d : gmap string (list string)) : gmap string (gset string) :=
  list_to_set <$> d.

(** Two groups agree when they hold the same paths, in any order. *)
Definition same_group (g1 g2 : option (list string)) : Prop :=
  match g1, g2 with
  | Some l1, Some l2 => l1 ≡ₚ l2
  | None, None => True
  | _, _ => False
  end.

(** Two outcomes of a scan agree when both raise, or both return and the
    results are the same mapping from fingerprints to sets of paths. *)
Definition same_grouping (r1 r2 : result (gmap string (list string))) : Prop :=
  match r1, r2 with
  | Return d1, Return d2 =>
      as_sets d1 = as_sets d2 ∧ ∀ h, same_group (d1 !! h) (d2 !! h)
  | Raise _, Raise _ => True
  | _, _ => False
  end.

(** The distinct elements of a list, in the order of their first
    occurrence. *)
Fixpoint first_occurrences (l : list string) : list string :=
  match l with
  | [] => []
  | x :: l' => x :: filter (λ y, y ≠ x) (first_occurrences l')
  end.

(** The items built from a candidate list: one for each fingerprint, in
    the order in which the fingerprints first occur, those with two
    members or more. *)
Definition ordered_groups (fs : filesystem) (self : FileDuplicateFinder)
    (files : list string) : list (string * list string) :=
  filter (λ kv, 1 < length kv.2)
    ((λ h, (h, bucket fs self files h)) <$>
       first_occurrences (omap (file_hash fs self) files)).

(** The sum of the sizes of some paths whose sizes can all be read. *)
Definition known_size (fs : filesystem) (path : string) : Z :=
  match os_path_getsize fs path with
  | inr size => size
  | inl _ => 0%Z
  end.

Definition total_size (fs : filesystem) (file_paths : list string) : Z :=
  foldr Z.add 0%Z (known_size fs <$> file_paths).

(** The lines of a whole report: the groups are numbered from 1. *)
Definition report_lines (fs : filesystem) (items : list (string * list string))
    : list string :=
  concat (imap (λ k kv, group_lines (S k) kv.1 kv.2 (total_size fs kv.2)) items).

(** ** A sample directory

    [/data] holds [a.txt] and [b.txt] with the same six bytes, [c.txt] with
    six other bytes, and a sub-directory with a copy named [d2.tmp] and a
    file that cannot be opened.  [/data/sub/bad] is known to the file
    system but not listed by the walk; its first read fails. *)
Module Sample.

Definition hello : list byte := String.list_byte_of_string "hello
".
Definition world : list byte := String.list_byte_of_string "world
".

Definition contents : list (string * (os_error + file_obj)) :=
  [ ("/data/a.txt", inr (mk_file hello None));
    ("/data/b.txt", inr (mk_file hello None));
    ("/data/c.txt", inr (mk_file world None));
    ("/data/sub/d2.tmp", inr (mk_file hello None));
    ("/data/sub/locked",
     inl (mk_os_error EACCES "[Errno 13] Permission denied: '/data/sub/locked'"));
    ("/data/sub/bad",
     inr (mk_file hello (Some (0, mk_os_error EIO "[Errno 5] Input/output error")))) ].

Definition lookup_path {A} (d : A) (tbl : list (string * A)) (p : string) : A :=
  match list_find (λ kv, kv.1 = p) tbl with
  | Some (_, (_, v)) => v
  | None => d
  end.

Definition no_entry (p : string) : os_error :=
  mk_os_error ENOENT ("[Errno 2] No such file or directory: '" +:+ p +:+ "'").

Definition fs : filesystem :=
  {| os_path_abspath := λ p, p;
     os_walk := λ top,
       if bool_decide (top = "/data")
       then [ ("/data", ["sub"], ["a.txt"; "c.txt"; "b.txt"]);
              ("/data/sub", [], ["d2.tmp"; "locked"]) ]
       else [];
     os_path_getsize := λ p,
       if bool_decide (p = "/data/sub/locked") then inr 6%Z
       else match lookup_path (inl (no_entry p)) contents p with
            | inr f => inr (Z.of_nat (length (f_data f)))
            | inl e => inl e
            end;
     open_rb := λ p, lookup_path (inl (no_entry p)) contents p |}.

(** The same files, listed in another order. *)
Definition fs_reordered : filesystem :=
  {| os_path_abspath := os_path_abspath fs;
     os_walk := λ top,
       if bool_decide (top = "/data")
       then [ ("/data", ["sub"], ["b.txt"; "c.txt"; "a.txt"]);
              ("/data/sub", [], ["locked"; "d2.tmp"]) ]
       else [];
     os_path_getsize := os_path_getsize fs;
     open_rb := open_rb fs |}.

(** [/data] with a symbolic link [link] whose target does not exist: the
    walk lists it among the files, and its size cannot be read. *)
Definition fs_dangling : filesystem :=
  {| os_path_abspath := os_path_abspath fs;
     os_walk := λ top,
       if bool_decide (top = "/data")
       then [ ("/data", [], ["a.txt"; "link"; "b.txt"]) ]
       else [];
     os_path_getsize := os_path_getsize fs;
     open_rb := open_rb fs |}.

Definition hello_digest : string :=
  "5891b5b522d5df086d0ff0b110fbd9d21bb4fc7163af34d08286a2e846f6be03".

(** [FileDuplicateFinder("/data")] and its result. *)
Definition finder : FileDuplicateFinder := __init__ fs "/data" None None.

Definition groups : gmap string (list string) :=
  {[ hello_digest := ["/data/a.txt"; "/data/b.txt"; "/data/sub/d2.tmp"] ]}.

(** The same file system, except that reading [/data/sub/d2.tmp] fails
    at the fourth call of [read]. *)
Definition io_error : os_error := mk_os_error EIO "[Errno 5] Input/output error".

Definition fs_late_fault : filesystem :=
  {| os_path_abspath := os_path_abspath fs;
     os_walk := os_walk fs;
     os_path_getsize := os_path_getsize fs;
     open_rb := λ p,
       if bool_decide (p = "/data/sub/d2.tmp")
       then inr (mk_file hello (Some (3, io_error)))
       else open_rb fs p |}.

(** The same file system, except that [/data/sub/d2.tmp] cannot be
    opened. *)
Definition fs_unreadable : filesystem :=
  {| os_path_abspath := os_path_abspath fs;
     os_walk := os_walk fs;
     os_path_getsize := os_path_getsize fs;
     open_rb := λ p,
       if bool_decide (p = "/data/sub/d2.tmp")
       then inl (mk_os_error EACCES "[Errno 13] Permission denied: '/data/sub/d2.tmp'")
       else open_rb fs p |}.

(** A stricter finder: files of one byte and names containing [tmp] are
    left out. *)
Definition finder_strict : FileDuplicateFinder :=
  __init__ fs "/data" (Some ["tmp"]) (Some 2%Z).

Definition items : list (string * list string) :=
  [ (hello_digest, ["/data/a.txt"; "/data/b.txt"; "/data/sub/d2.tmp"]) ].

(** A 64-bit runtime with memory for buffers of up to [2^32] bytes, a
    console that takes every line, a FIFO and an endless device. *)
Definition rt : runtime :=
  {| alloc_error := λ n,
       if (2 ^ 63 - 34 <=? n)%N
       then Some (mk_exception OverflowError
                    (if (2 ^ 63 <=? n)%N
                     then "cannot fit 'int' into an index-sized integer"
                     else "byte string is too large"))
       else if (2 ^ 32 <? n)%N then Some (mk_exception MemoryError "")
       else None;
     stdout_error := λ _ _, None;
     open_blocks := λ p, bool_decide (p = "/data/pipe");
     endless := λ p, bool_decide (p = "/data/zero");
     abspath_error := λ _, None |}.

(** The same runtime with a console that cannot encode the name
    [/data/b.txt]: [print] raises a [UnicodeEncodeError], which is a
    [ValueError]. *)
Definition rt_narrow_console : runtime :=
  {| alloc_error := alloc_error rt;
     stdout_error := λ _ line,
       if str_in "b.txt" line
       then Some (mk_exception ValueError "'utf-8' codec can't encode characters")
       else None;
     open_blocks := open_blocks rt;
     endless := endless rt;
     abspath_error := abspath_error rt |}.

(** The same runtime after the current directory has been removed. *)
Definition rt_no_cwd : runtime :=
  {| alloc_error := alloc_error rt;
     stdout_error := stdout_error rt;
     open_blocks := open_blocks rt;
     endless := endless rt;
     abspath_error := λ p,
       if String.prefix "/" p then None
       else Some (mk_os_error ENOENT "[Errno 2] No such file or directory") |}.

(** A path with a NUL character. *)
Definition nul_path : string := "/data/a" +:+ String "000"%char "b".

(** [/data] with the FIFO [pipe] and the device [zero] of [rt], both of
    size 0 and open to the user. *)
Definition fs_special : filesystem :=
  {| os_path_abspath := os_path_abspath fs;
     os_walk := λ top,
       if bool_decide (top = "/data")
       then [ ("/data", [], ["a.txt"; "pipe"; "zero"]) ]
       else [];
     os_path_getsize := λ p,
       if bool_decide (p = "/data/pipe" ∨ p = "/data/zero") then inr 0%Z
       else os_path_getsize fs p;
     open_rb := λ p,
       if bool_decide (p = "/data/pipe" ∨ p = "/data/zero")
       then inr (mk_file [] None)
       else open_rb fs p |}.

End Sample.

(** * Properties *)

(** Equalities between closed terms, checked by evaluation. *)
Ltac by_vm_cast :=
  lazymatch goal with
  | |- ?a = ?b => vm_cast_no_check (@eq_refl _ b)
  end.

(** Every size in a closed list of paths can be read. *)
Ltac sizes_known :=
  repeat first [ apply Forall_nil_2 | apply Forall_cons_2
               | (eexists; vm_compute; reflexivity) ].

(** ** Strings and digests *)

(** The standard test vectors of SHA-256 (FIPS 180-4, one and two
    blocks), and the digest of the sample content. *)
Example sha256_empty :
  SHA256.hexdigest []
  = "e3b0c44298fc1c149afbf4c8996fb92427ae41e4649b934ca495991b7852b855".
Proof. by vm_compute. Qed.

Example sha256_abc :
  SHA256.hexdigest (String.list_byte_of_string "abc")
  = "ba7816bf8f01cfea414140de5dae2223b00361a396177a9cb410ff61f20015ad".
Proof. by vm_compute. Qed.

Example sha256_two_blocks :
  SHA256.hexdigest
    (String.list_byte_of_string "abcdbcdecdefdefgefghfghighijhijkijkljklmklmnlmnomnopnopq")
  = "248d6a61d20638b8e5c026930c3e6039a33ce45964ff2167f6ecedd419db06c1".
Proof. by vm_compute. Qed.

Example sha256_hello : SHA256.hexdigest Sample.hello = Sample.hello_digest.
Proof. by vm_compute. Qed.

(** The scan of the sample directory, under three schedules. *)
Example sample_scan :
  find_duplicate_files Sample.fs Sample.finder []
  = (Return Sample.groups, [(WARNING, "Нет доступа к файлу: /data/sub/locked")]).
Proof. by_vm_cast. Qed.

Example sample_scan_ignore_tmp :
  (find_duplicate_files Sample.fs (__init__ Sample.fs "/data" (Some ["tmp"]) None) [4; 2]).1
  = Return {[ Sample.hello_digest := ["/data/a.txt"; "/data/b.txt"] ]}.
Proof. by_vm_cast. Qed.

Example sample_scan_min_size_10 :
  (find_duplicate_files Sample.fs (__init__ Sample.fs "/data" None (Some 10%Z)) [1; 3]).1
  = Return ∅.
Proof. by_vm_cast. Qed.


Lemma prefix_spec (p s : string) :
  String.prefix p s = true ↔ ∃ post, s = p +:+ post.
Proof.
  revert p. induction s as [|c s IH]; intros [|a p]; simpl.
  - split; [intros _; by exists ""|done].
  - split; [done|]. by intros [post ?].
  - split; [intros _; by exists (String c s)|done].
  - destruct (ascii_dec a c) as [->|Hne].
    + rewrite IH. split.
      * intros [post ->]. by exists post.
      * intros [post Heq]. exists post. by injection Heq.
    + split; [done|]. intros [post Heq]. by injection Heq.
Qed.

(** [str_in] is substring containment. *)
Lemma str_in_spec (pattern s : string) :
  str_in pattern s = true ↔ ∃ pre post, s = pre +:+ pattern +:+ post.
Proof.
  induction s as [|c s IH]; cbn [str_in].
  - rewrite orb_false_r, prefix_spec. split.
    + intros [post ->]. by exists "", post.
    + intros [[|a pre] [post Heq]]; [by exists post|done].
  - rewrite orb_true_iff, prefix_spec, IH. split.
    + intros [[post ->]|(pre & post & ->)].
      * by exists "", post.
      * by exists (String c pre), post.
    + intros [[|a pre] [post Heq]].
      * left. by exists post.
      * right. exists pre, post. by injection Heq.
Qed.

Lemma str_in_empty (s : string) : str_in "" s = true.
Proof. apply str_in_spec. by exists "", s. Qed.

Lemma hex32_length (w : Z) (rest : string) :
  String.length (SHA256.hex32 w rest) = 8 + String.length rest.
Proof. reflexivity. Qed.

(** A digest is 64 characters long, so it is never a false value. *)
Lemma hexdigest_length (h : hasher) : String.length (hexdigest h) = 64.
Proof.
  unfold hexdigest, SHA256.hexdigest, SHA256.hex_of_state.
  by rewrite !hex32_length.
Qed.

Lemma hexdigest_truthy (h : hasher) : truthy_str (Some (hexdigest h)) = true.
Proof.
  pose proof (hexdigest_length h) as Hlen.
  by destruct (hexdigest h).
Qed.

(** ** Reading and hashing one file *)

Lemma os_exception_OSError (e : os_error) : isinstance (os_exception e) OSError = true.
Proof. by destruct e as [[] ?]. Qed.

Lemma os_exception_PermissionError (e : os_error) :
  isinstance (os_exception e) PermissionError = true ↔ err_no e = EPERM ∨ err_no e = EACCES.
Proof.
  destruct e as [[] ?]; (split;
    [ intros H; first [by left | by right | by vm_compute in H]
    | intros [H|H]; first [reflexivity | discriminate H] ]).
Qed.

Lemma f_read_Raise (f : file_obj) (n : nat) (e : exception) :
  f_read f n = Raise e → ∃ oe, e = os_exception oe.
Proof.
  unfold f_read. destruct (f_fault f) as [[[|k] oe]|]; intros; simplify_eq. by exists oe.
Qed.

Lemma read_loop_Raise (fuel : nat) (f : file_obj) (cs : nat) (h : hasher) (e : exception) :
  read_loop fuel f cs h = Raise e → ∃ oe, e = os_exception oe.
Proof.
  revert f h. induction fuel as [|fuel IH]; intros f h; cbn [read_loop]; [done|].
  destruct (f_read f cs) as [[chunk f']|e'] eqn:Hread.
  - destruct (truthy_bytes chunk); [apply IH|done].
  - intros; simplify_eq. by eapply f_read_Raise.
Qed.

Lemma f_read_data (f f' : file_obj) (n : nat) (chunk : list byte) :
  f_read f n = Return (chunk, f') →
  chunk = take n (f_data f) ∧ f_data f' = drop n (f_data f).
Proof.
  unfold f_read. destruct (f_fault f) as [[[|k] oe]|]; intros; by simplify_eq.
Qed.

Lemma truthy_bytes_false (b : list byte) : truthy_bytes b = false ↔ b = [].
Proof. by destruct b. Qed.

(** Whatever [read_loop] returns is the hasher fed with the whole file. *)
Lemma read_loop_Return (fuel : nat) (f : file_obj) (cs : nat) (h h' : hasher) :
  0 < cs → length (f_data f) < fuel →
  read_loop fuel f cs h = Return h' → h' = h ++ f_data f.
Proof.
  intros Hcs. revert f h. induction fuel as [|fuel IH]; intros f h Hfuel; [lia|].
  cbn [read_loop]. destruct (f_read f cs) as [[chunk f']|e'] eqn:Hread; [|done].
  apply f_read_data in Hread as [-> Hdata].
  destruct (truthy_bytes _) eqn:Htruthy.
  - intros Hloop. apply IH in Hloop.
    + unfold update in Hloop. by rewrite Hloop, Hdata, <-(assoc_L (++)), take_drop.
    + rewrite Hdata, length_drop. destruct (f_data f), cs; simplify_eq/=; lia.
  - apply truthy_bytes_false in Htruthy. intros; simplify_eq.
    destruct (f_data f) as [|b data]; [by rewrite (right_id_L [] (++))|].
    destruct cs; [lia|done].
Qed.

(** The loop stops by itself before [S (length (f_data f))] iterations:
    more fuel changes nothing. *)
Lemma read_loop_fuel (fuel k : nat) (f : file_obj) (cs : nat) (h : hasher) :
  length (f_data f) < fuel →
  read_loop (fuel + k) f cs h = read_loop fuel f cs h.
Proof.
  revert f h. induction fuel as [|fuel IH]; intros f h Hfuel; [lia|].
  cbn [read_loop Nat.add]. destruct (f_read f cs) as [[chunk f']|e'] eqn:Hread; [|done].
  apply f_read_data in Hread as [-> Hdata].
  destruct (truthy_bytes _) eqn:Htruthy; [|done].
  apply IH. rewrite Hdata, length_drop.
  destruct (f_data f), cs; simplify_eq/=; lia.
Qed.

(** A file without fault is read to its end. *)
Lemma read_loop_no_fault (fuel : nat) (data : list byte) (cs : nat) (h : hasher) :
  0 < cs → length data < fuel →
  read_loop fuel (mk_file data None) cs h = Return (h ++ data).
Proof.
  intros Hcs. revert data h. induction fuel as [|fuel IH]; intros data h Hfuel; [lia|].
  cbn [read_loop]. unfold f_read. cbn [f_fault f_data].
  destruct (truthy_bytes _) eqn:Htruthy.
  - rewrite IH.
    + unfold update. by rewrite <-(assoc_L (++)), take_drop.
    + rewrite length_drop. destruct data, cs; simplify_eq/=; lia.
  - apply truthy_bytes_false in Htruthy.
    destruct data as [|b data]; [by rewrite (right_id_L [] (++))|].
    destruct cs; [lia|done].
Qed.

Lemma hash_body_Raise (fs : filesystem) (p : string) (cs : nat) (e : exception) :
  hash_body fs p cs = Raise e → ∃ oe, e = os_exception oe.
Proof.
  unfold hash_body. destruct (open_rb fs p) as [oe|f].
  - intros; simplify_eq. by exists oe.
  - destruct (read_loop _ f cs sha256_new) as [h|e'] eqn:Hloop; [done|].
    intros [= ->]. by eapply read_loop_Raise.
Qed.

Lemma hash_body_Return (fs : filesystem) (p : string) (cs : nat) (digest : string) :
  0 < cs → hash_body fs p cs = Return digest →
  ∃ f, open_rb fs p = inr f ∧ digest = SHA256.hexdigest (f_data f).
Proof.
  unfold hash_body. intros Hcs. destruct (open_rb fs p) as [oe|f]; [done|].
  destruct (read_loop _ f cs sha256_new) as [h|e'] eqn:Hloop; [|done].
  apply read_loop_Return in Hloop; [|done|lia]. intros [= <-]. exists f. by subst h.
Qed.

Lemma default_chunk_size_pos : 0 < default_chunk_size.
Proof. apply Nat.ltb_lt. by vm_compute. Qed.

Lemma calculate_hash_Return (fs : filesystem) (self : FileDuplicateFinder)
    (p : string) (cs : nat) :
  ∃ o, (calculate_hash fs self p cs).1 = Return o.
Proof.
  unfold calculate_hash. destruct (hash_body fs p cs) as [digest|e] eqn:Hbody.
  - by eexists.
  - apply hash_body_Raise in Hbody as [oe ->].
    destruct (isinstance _ PermissionError); [by eexists|].
    rewrite os_exception_OSError. by eexists.
Qed.

Lemma calculate_hash_file_hash (fs : filesystem) (self : FileDuplicateFinder) (p : string) :
  (calculate_hash fs self p default_chunk_size).1 = Return (file_hash fs self p).
Proof.
  unfold file_hash.
  by destruct (calculate_hash_Return fs self p default_chunk_size) as [o ->].
Qed.

Lemma file_hash_Some (fs : filesystem) (self : FileDuplicateFinder) (p h : string) :
  file_hash fs self p = Some h →
  ∃ f, open_rb fs p = inr f ∧ h = SHA256.hexdigest (f_data f).
Proof.
  unfold file_hash, calculate_hash.
  destruct (hash_body fs p default_chunk_size) as [digest|e] eqn:Hbody.
  - intros [= ->]. eapply hash_body_Return; [apply default_chunk_size_pos|done].
  - apply hash_body_Raise in Hbody as [oe ->].
    destruct (isinstance _ PermissionError); [done|].
    by rewrite os_exception_OSError.
Qed.

Lemma file_hash_truthy (fs : filesystem) (self : FileDuplicateFinder) (p h : string) :
  file_hash fs self p = Some h → truthy_str (Some h) = true.
Proof. intros (f & _ & ->)%file_hash_Some. apply hexdigest_truthy. Qed.

Lemma file_hash_None_falsy (fs : filesystem) (self : FileDuplicateFinder) (p : string) :
  truthy_str (file_hash fs self p) = false → file_hash fs self p = None.
Proof.
  destruct (file_hash fs self p) as [h|] eqn:Hh; [|done].
  by rewrite (file_hash_truthy _ _ _ _ Hh).
Qed.

(** ** The directory walk *)

Lemma scan_entries_app fs self es1 es2 acc :
  scan_entries fs self (es1 ++ es2) acc =
  scan_entries fs self es1 acc ≫= scan_entries fs self es2.
Proof.
  revert acc. induction es1 as [|e es1 IH]; intros acc; [done|].
  cbn [scan_entries app]. by destruct (os_path_getsize fs (entry_path e)).
Qed.

Lemma scan_files_entries fs self root files acc :
  scan_files fs self root files acc =
  scan_entries fs self ((λ filename, (root, filename)) <$> files) acc.
Proof.
  revert acc. induction files as [|filename files IH]; intros acc; [done|].
  cbn [scan_files scan_entries fmap list_fmap]. unfold passes_filter, entry_path.
  cbn [fst snd]. destruct (os_path_getsize fs _); [done|].
  by destruct (_ && _).
Qed.

Lemma scan_walk_entries fs self walk acc :
  scan_walk fs self walk acc = scan_entries fs self (entries walk) acc.
Proof.
  revert acc. induction walk as [|[[root dirs] files] walk IH]; intros acc; [done|].
  cbn [scan_walk]. unfold entries. cbn [mbind list_bind]. fold (entries walk).
  rewrite scan_entries_app, scan_files_entries.
  destruct (scan_entries _ _ _ acc); [apply IH|done].
Qed.

(** The walk returns exactly when the size of every discovered file can
    be read, and then it keeps the entries that pass the filter, in
    order. *)
Lemma scan_entries_Return fs self es acc l :
  scan_entries fs self es acc = Return l ↔
  Forall (λ e, is_Some (maybe inr (os_path_getsize fs (entry_path e)))) es ∧
  l = acc ++ (entry_path <$> filter (λ e, passes_filter fs self e) es).
Proof.
  revert acc. induction es as [|e es IH]; intros acc; cbn [scan_entries].
  - rewrite filter_nil, fmap_nil, (right_id_L [] (++)). split; [intros [= ->]|intros [_ ->]]; done.
  - rewrite Forall_cons, filter_cons.
    destruct (os_path_getsize fs (entry_path e)) as [err|size] eqn:Hsize; cbn.
    + split; [done|]. by intros [[[] ?] _].
    + rewrite IH. destruct (passes_filter fs self e); cbn.
      * rewrite decide_True by done. rewrite <-(assoc_L (++)). cbn.
        split; [intros [? ->]|intros [[_ ?] ->]]; eauto.
      * rewrite decide_False by (by intros []).
        split; [intros [? ->]|intros [[_ ?] ->]]; eauto.
Qed.

(** Otherwise it raises the error of the first file whose size cannot
    be read. *)
Lemma scan_entries_Raise fs self es acc ex :
  scan_entries fs self es acc = Raise ex ↔
  ∃ es1 e es2 err, es = es1 ++ e :: es2 ∧
    Forall (λ e, is_Some (maybe inr (os_path_getsize fs (entry_path e)))) es1 ∧
    os_path_getsize fs (entry_path e) = inl err ∧ ex = os_exception err.
Proof.
  revert acc. induction es as [|e es IH]; intros acc; cbn [scan_entries].
  - split; [done|]. by intros ([|??] & ? & ? & ? & ? & _).
  - destruct (os_path_getsize fs (entry_path e)) as [err|size] eqn:Hsize.
    + split.
      * intros [= <-]. by exists [], e, es, err.
      * intros ([|e1 es1] & e' & es2 & err' & Heq & Hall & Herr & ->); simplify_eq/=.
        { by rewrite Hsize in Herr; simplify_eq. }
        apply Forall_cons in Hall as [[? Hs] _]. by rewrite Hsize in Hs.
    + rewrite IH. split.
      * intros (es1 & e' & es2 & err & -> & Hall & Herr & ->).
        exists (e :: es1), e', es2, err. split_and!; try done.
        apply Forall_cons. split; [|done]. by rewrite Hsize; eexists.
      * intros ([|e1 es1] & e' & es2 & err' & Heq & Hall & Herr & ->); simplify_eq/=.
        { by rewrite Hsize in Herr. }
        apply Forall_cons in Hall as [_ Hall]. by exists es1, e', es2, err'.
Qed.

(** ** The thread pool *)

(** Every task finishes exactly once, whatever the scheduler chooses. *)
Lemma completion_order_perm (n : nat) (sched : list nat) :
  completion_order n sched ≡ₚ seq 0 n.
Proof.
  unfold completion_order. set (first := remove_dups _).
  apply NoDup_Permutation.
  - apply NoDup_app. split_and!.
    + apply NoDup_remove_dups.
    + by intros i Hi [_ ?]%list_elem_of_difference.
    + apply NoDup_list_difference, NoDup_seq.
  - apply NoDup_seq.
  - intros i. rewrite elem_of_app, list_elem_of_difference. split.
    + intros [Hi|[Hi _]]; [|done]. unfold first in Hi.
      apply elem_of_remove_dups, list_elem_of_filter in Hi as [Hi _].
      apply elem_of_seq. lia.
    + intros Hi. destruct (decide (i ∈ first)); auto.
Qed.

Lemma omap_ext_in {A B} (g1 g2 : A → option B) (l : list A) :
  (∀ x, x ∈ l → g1 x = g2 x) → omap g1 l = omap g2 l.
Proof.
  induction l as [|x l IH]; intros Hext; [done|]. cbn.
  rewrite (Hext x) by left. rewrite IH; [done|].
  intros y Hy. apply Hext. by right.
Qed.

(** Running the tasks in submission order pairs each argument with its
    index. *)
Lemma omap_lookup_seq {A B} (g : nat → A → B) (xs : list A) :
  omap (λ i, g i <$> xs !! i) (seq 0 (length xs)) = imap g xs.
Proof.
  induction xs as [|x xs IH] using rev_ind; [done|].
  rewrite length_app, Nat.add_comm. cbn [length Nat.add]. rewrite seq_S, omap_app, imap_app.
  f_equal.
  - rewrite <-IH. apply omap_ext_in. intros i Hi%elem_of_seq.
    rewrite lookup_app_l by lia. done.
  - cbn. rewrite lookup_app_r by lia. rewrite Nat.sub_diag. cbn.
    by rewrite Nat.add_0_r.
Qed.

Lemma StronglySorted_imap_index {A B} (g : A → B) (k : nat) (xs : list A) :
  StronglySorted index_le (imap (λ i x, (k + i, g x)) xs).
Proof.
  revert k. induction xs as [|x xs IH]; intros k; [constructor|].
  cbn. constructor.
  - erewrite imap_ext; [apply (IH (S k))|].
    intros i y _. cbn. f_equal. lia.
  - apply Forall_forall. intros [j r] Hj.
    apply list_elem_of_lookup in Hj as [i Hi].
    rewrite list_lookup_imap in Hi. destruct (xs !! i); simplify_eq/=.
    unfold index_le. cbn. lia.
Qed.

(** [executor.map] hands out the results in the order of its input,
    whatever the order in which the tasks finish. *)
Lemma executor_map_results {A B} (f : A → B * list log_record) (xs : list A)
    (sched : list nat) :
  (executor_map f xs sched).1 = (λ x, (f x).1) <$> xs.
Proof.
  unfold executor_map. cbn [fst].
  set (completed := omap _ _).
  set (indexed := imap (λ i x, (0 + i, f x)) xs).
  assert (completed ≡ₚ indexed) as Hperm.
  { unfold completed, indexed. rewrite completion_order_perm.
    by rewrite (omap_lookup_seq (λ i x, (i, f x))). }
  assert (merge_sort index_le completed = indexed) as ->.
  { apply StronglySorted_unique_strong with (R := index_le).
    - intros [i1 r1] [i2 r2] H1 H2 Hle1 Hle2.
      rewrite merge_sort_Permutation, Hperm in H1.
      apply list_elem_of_lookup in H1 as [j1 H1], H2 as [j2 H2].
      unfold indexed in H1, H2. rewrite list_lookup_imap in H1, H2.
      unfold index_le in Hle1, Hle2. cbn in Hle1, Hle2.
      destruct (xs !! j1) as [x1|] eqn:E1; [|done].
      destruct (xs !! j2) as [x2|] eqn:E2; [|done].
      cbn in H1, H2. injection H1 as <- <-. injection H2 as <- <-.
      assert (j1 = j2) as -> by lia. rewrite E1 in E2. by injection E2 as ->.
    - apply StronglySorted_merge_sort.
      + intros ???. unfold index_le. lia.
      + intros ??. unfold index_le. lia.
    - apply StronglySorted_imap_index.
    - by rewrite merge_sort_Permutation. }
  unfold indexed. apply list_eq. intros i.
  rewrite !list_lookup_fmap, list_lookup_imap. by destruct (xs !! i).
Qed.

(** The log holds the records of every task, in completion order. *)
Lemma executor_map_log {A B} (f : A → B * list log_record) (xs : list A)
    (sched : list nat) :
  (executor_map f xs sched).2 ≡ₚ concat ((λ x, (f x).2) <$> xs).
Proof.
  unfold executor_map. cbn [snd].
  rewrite completion_order_perm, (omap_lookup_seq (λ i x, (i, f x))).
  apply reflexive_eq. f_equal. apply list_eq. intros i.
  change (map ?g ?l) with (g <$> l).
  rewrite !list_lookup_fmap, list_lookup_imap. by destruct (xs !! i).
Qed.

Lemma results_of_Return {A} (l : list A) : results_of (Return <$> l) = Return l.
Proof. induction l as [|a l IH]; [done|]. cbn. by rewrite IH. Qed.

(** ** Grouping *)

Lemma bucket_cons fs self p files h :
  bucket fs self (p :: files) h =
  if decide (file_hash fs self p = Some h) then p :: bucket fs self files h
  else bucket fs self files h.
Proof. unfold bucket. by rewrite filter_cons. Qed.

Lemma group_fold_lookup fs self files (m : gmap string (list string)) h :
  foldl group_step m (zip files (file_hash fs self <$> files)) !! h =
  match bucket fs self files h with
  | [] => m !! h
  | l => Some (default [] (m !! h) ++ l)
  end.
Proof.
  revert m. induction files as [|p files IH]; intros m; [done|].
  cbn [fmap list_fmap zip zip_with foldl]. rewrite IH, bucket_cons.
  unfold group_step. destruct (file_hash fs self p) as [h'|] eqn:Hp.
  - rewrite (file_hash_truthy _ _ _ _ Hp). case_decide as Hh; simplify_eq.
    + rewrite lookup_insert_eq. cbn.
      destruct (bucket fs self files h); [done|].
      by rewrite <-(assoc_L (++)).
    + rewrite lookup_insert_ne by congruence. done.
  - cbn. by rewrite decide_False.
Qed.

Lemma lookup_groups_of fs self files h paths :
  groups_of fs self files !! h = Some paths ↔
  paths = bucket fs self files h ∧ 1 < length paths.
Proof.
  unfold groups_of. rewrite map_lookup_filter_Some, group_fold_lookup, lookup_empty.
  cbn [snd]. destruct (bucket fs self files h) as [|p l] eqn:Hb; cbn.
  - split; [by intros [? _]|]. intros [-> Hlen]. cbn in Hlen. lia.
  - split; [intros [[= <-] ?]|intros [-> ?]]; done.
Qed.

(** The result of the scan: the walk decides whether there is one, and
    the candidate list alone decides which.  The scheduler has no say. *)
Lemma find_duplicate_files_result fs self sched :
  (find_duplicate_files fs self sched).1 =
  files ← scan_entries fs self (entries (os_walk fs (directory self))) [];
  mret (groups_of fs self files).
Proof.
  unfold find_duplicate_files. rewrite scan_walk_entries.
  destruct (scan_entries _ _ _ _) as [files|e]; [|done]. cbn [mbind result_bind].
  pose proof (executor_map_results
    (λ p, calculate_hash fs self p default_chunk_size) files sched) as Hres.
  destruct (executor_map _ files sched) as [futures log]. cbn [fst] in Hres.
  assert (futures = Return <$> (file_hash fs self <$> files)) as ->.
  { rewrite Hres, <-list_fmap_compose. apply list_fmap_ext.
    intros i p _. apply calculate_hash_file_hash. }
  by rewrite results_of_Return.
Qed.

(** What is logged: one record for each candidate that could not be
    read, in the order in which the tasks finished. *)
Lemma find_duplicate_files_log fs self sched files :
  scan_entries fs self (entries (os_walk fs (directory self))) [] = Return files →
  (find_duplicate_files fs self sched).2 ≡ₚ
  concat ((λ p, (calculate_hash fs self p default_chunk_size).2) <$> files).
Proof.
  unfold find_duplicate_files. rewrite scan_walk_entries. intros ->.
  pose proof (executor_map_results
    (λ p, calculate_hash fs self p default_chunk_size) files sched) as Hres.
  pose proof (executor_map_log
    (λ p, calculate_hash fs self p default_chunk_size) files sched) as Hlog.
  destruct (executor_map _ files sched) as [futures log]. cbn [fst snd] in *.
  assert (futures = Return <$> (file_hash fs self <$> files)) as ->.
  { rewrite Hres, <-list_fmap_compose. apply list_fmap_ext.
    intros i p _. apply calculate_hash_file_hash. }
  by rewrite results_of_Return.
Qed.

(** ** The scan as a whole *)

Lemma find_duplicate_files_Return fs self sched d :
  (find_duplicate_files fs self sched).1 = Return d →
  d = groups_of fs self (candidates fs self).
Proof.
  rewrite find_duplicate_files_result.
  destruct (scan_entries _ _ _ _) as [files|e] eqn:Hscan; [|done].
  apply scan_entries_Return in Hscan as [_ ->]. by intros [= <-].
Qed.

Lemma find_duplicate_files_lookup fs self sched d h paths :
  (find_duplicate_files fs self sched).1 = Return d →
  d !! h = Some paths ↔
  paths = bucket fs self (candidates fs self) h ∧ 1 < length paths.
Proof. intros ->%find_duplicate_files_Return. apply lookup_groups_of. Qed.

Lemma elem_of_candidates fs self p :
  p ∈ candidates fs self ↔
  ∃ e, e ∈ entries (os_walk fs (directory self)) ∧ entry_path e = p ∧
       passes_filter fs self e = true.
Proof.
  unfold candidates. rewrite list_elem_of_fmap. split.
  - intros (e & -> & [Hpass He]%list_elem_of_filter).
    exists e. split_and!; [done..|]. by apply Is_true_true.
  - intros (e & He & <- & Hpass). exists e. split; [done|].
    apply list_elem_of_filter. split; [|done]. by apply Is_true_true.
Qed.

Lemma passes_filter_true fs self e :
  passes_filter fs self e = true ↔
  ∃ size, os_path_getsize fs (entry_path e) = inr size ∧
          (min_file_size self ≤ size)%Z ∧ _should_ignore_file self e.2 = false.
Proof.
  unfold passes_filter. destruct (os_path_getsize fs (entry_path e)) as [err|size].
  - split; [done|]. by intros (? & ? & _).
  - rewrite andb_true_iff, negb_true_iff, Z.leb_le. split.
    + intros [??]. by exists size.
    + by intros (? & [= <-] & ? & ?).
Qed.

Lemma elem_of_bucket fs self files h p :
  p ∈ bucket fs self files h ↔ file_hash fs self p = Some h ∧ p ∈ files.
Proof. unfold bucket. by rewrite list_elem_of_filter. Qed.

Lemma file_hash_calculate_hash fs self p h :
  file_hash fs self p = Some h ↔
  (calculate_hash fs self p default_chunk_size).1 = Return (Some h).
Proof. rewrite calculate_hash_file_hash. split; [by intros ->|by intros [= ->]]. Qed.

(** Two positions of a list split it in three. *)
Lemma lookup_two_split {A} (l : list A) (i j : nat) (x y : A) :
  i < j → l !! i = Some x → l !! j = Some y →
  ∃ l1 l2 l3, l = l1 ++ x :: l2 ++ y :: l3.
Proof.
  intros Hij Hi Hj.
  exists (take i l), (take (j - S i) (drop (S i) l)), (drop (S (j - S i)) (drop (S i) l)).
  rewrite take_drop_middle; [by rewrite take_drop_middle|].
  rewrite lookup_drop. by replace (S i + (j - S i)) with j by lia.
Qed.

Lemma bucket_two_members fs self l1 l2 l3 e1 e2 h :
  passes_filter fs self e1 = true → passes_filter fs self e2 = true →
  file_hash fs self (entry_path e1) = Some h →
  file_hash fs self (entry_path e2) = Some h →
  1 < length (bucket fs self
    (entry_path <$> filter (λ e, passes_filter fs self e) (l1 ++ e1 :: l2 ++ e2 :: l3)) h).
Proof.
  intros Hp1 Hp2 Hh1 Hh2. unfold bucket.
  rewrite filter_app, filter_cons, decide_True by by apply Is_true_true.
  rewrite filter_app, filter_cons, decide_True by by apply Is_true_true.
  rewrite fmap_app, fmap_cons, fmap_app, fmap_cons.
  rewrite filter_app, filter_cons, decide_True by done.
  rewrite filter_app, filter_cons, decide_True by done.
  rewrite length_app. cbn [length]. rewrite length_app. cbn [length]. lia.
Qed.

(** ** Properties of the specification *)

(** C1. Two distinct discovered files with identical content, both large
    enough, not ignored and both read successfully, get the same
    fingerprint, the SHA-256 hex digest of their content, and the result
    holds both paths in the group of that fingerprint and in no other
    group. *)
Theorem identical_files_share_one_group
    fs self sched d (i j : nat) e1 e2 f1 f2 size1 size2 h1 h2 :
  (find_duplicate_files fs self sched).1 = Return d →
  entries (os_walk fs (directory self)) !! i = Some e1 →
  entries (os_walk fs (directory self)) !! j = Some e2 →
  i ≠ j →
  open_rb fs (entry_path e1) = inr f1 →
  open_rb fs (entry_path e2) = inr f2 →
  f_data f1 = f_data f2 →
  os_path_getsize fs (entry_path e1) = inr size1 → (min_file_size self ≤ size1)%Z →
  os_path_getsize fs (entry_path e2) = inr size2 → (min_file_size self ≤ size2)%Z →
  _should_ignore_file self e1.2 = false →
  _should_ignore_file self e2.2 = false →
  (calculate_hash fs self (entry_path e1) default_chunk_size).1 = Return (Some h1) →
  (calculate_hash fs self (entry_path e2) default_chunk_size).1 = Return (Some h2) →
  h1 = SHA256.hexdigest (f_data f1) ∧ h2 = h1 ∧
  (∃ paths, d !! h1 = Some paths ∧ entry_path e1 ∈ paths ∧ entry_path e2 ∈ paths) ∧
  (∀ h' paths', d !! h' = Some paths' →
     entry_path e1 ∈ paths' ∨ entry_path e2 ∈ paths' → h' = h1).
Proof.
  intros Hd Hi Hj Hij Ho1 Ho2 Hdata Hs1 Hm1 Hs2 Hm2 Hg1 Hg2 Hc1 Hc2.
  apply file_hash_calculate_hash in Hc1, Hc2.
  destruct (file_hash_Some _ _ _ _ Hc1) as (f1' & Ho1' & Hh1).
  destruct (file_hash_Some _ _ _ _ Hc2) as (f2' & Ho2' & Hh2).
  rewrite Ho1 in Ho1'. rewrite Ho2 in Ho2'. simplify_eq.
  rewrite <-Hdata in Hc2.
  assert (passes_filter fs self e1 = true) as Hp1
    by (apply passes_filter_true; eauto).
  assert (passes_filter fs self e2 = true) as Hp2
    by (apply passes_filter_true; eauto).
  split_and!; [done|by rewrite Hdata| |].
  - exists (bucket fs self (candidates fs self) (SHA256.hexdigest (f_data f1'))).
    split_and!.
    + apply (find_duplicate_files_lookup _ _ _ _ _ _ Hd). split; [done|].
      unfold candidates.
      destruct (decide (i < j)) as [Hlt|Hge].
      * destruct (lookup_two_split _ _ _ _ _ Hlt Hi Hj) as (l1 & l2 & l3 & ->).
        by apply bucket_two_members.
      * assert (j < i) as Hlt by lia.
        destruct (lookup_two_split _ _ _ _ _ Hlt Hj Hi) as (l1 & l2 & l3 & ->).
        by apply bucket_two_members.
    + apply elem_of_bucket. split; [done|]. apply elem_of_candidates.
      exists e1. split_and!; [|done..]. by eapply list_elem_of_lookup_2.
    + apply elem_of_bucket. split; [done|]. apply elem_of_candidates.
      exists e2. split_and!; [|done..]. by eapply list_elem_of_lookup_2.
  - intros h' paths' [-> _]%(find_duplicate_files_lookup _ _ _ _ _ _ Hd) [Hin|Hin];
      apply elem_of_bucket in Hin as [Hh' _]; congruence.
Qed.

(** C2. Every entry of the returned mapping has at least two paths; no
    bucket with exactly one path is present. *)
Theorem groups_have_two_members fs self sched d h paths :
  (find_duplicate_files fs self sched).1 = Return d →
  d !! h = Some paths →
  2 ≤ length paths ∧ length paths ≠ 1.
Proof.
  intros Hd [_ Hlen]%(find_duplicate_files_lookup _ _ _ _ _ _ Hd). lia.
Qed.

Lemma should_ignore_false self filename :
  _should_ignore_file self filename = false ↔
  ∀ pattern, pattern ∈ ignore_patterns self →
    ¬ ∃ pre post, filename = pre +:+ pattern +:+ post.
Proof.
  unfold _should_ignore_file. induction (ignore_patterns self) as [|pat pats IH]; cbn.
  - split; [|done]. by intros _ pattern ?%elem_of_nil.
  - rewrite orb_false_iff, IH. split.
    + intros [Hpat Hpats] pattern [->|Hin]%elem_of_cons; [|by apply Hpats].
      rewrite <-str_in_spec. by rewrite Hpat.
    + intros Hall. split.
      * apply not_true_is_false. rewrite str_in_spec. apply Hall. by left.
      * intros pattern Hin. apply Hall. by right.
Qed.

(** X17. When the walk completes, the hashing candidates are the
    discovered files that pass the filter, in discovery order, and a file
    passes exactly when its size is at least the minimum and its name
    contains no ignore pattern.  With no ignore pattern the size alone
    decides. *)
Theorem candidate_iff_size_and_name fs self walk files_to_check :
  scan_walk fs self walk [] = Return files_to_check →
  files_to_check = entry_path <$> filter (λ e, passes_filter fs self e) (entries walk) ∧
  (∀ e, e ∈ entries walk →
     (passes_filter fs self e = true ↔
      ∃ size, os_path_getsize fs (entry_path e) = inr size ∧
        (min_file_size self ≤ size)%Z ∧
        ∀ pattern, pattern ∈ ignore_patterns self →
          ¬ ∃ pre post, e.2 = pre +:+ pattern +:+ post)) ∧
  (ignore_patterns self = [] →
   ∀ filename, _should_ignore_file self filename = false) ∧
  (ignore_patterns self = [] →
   ∀ e, e ∈ entries walk →
     (passes_filter fs self e = true ↔
      ∃ size, os_path_getsize fs (entry_path e) = inr size ∧
        (min_file_size self ≤ size)%Z)).
Proof.
  rewrite scan_walk_entries. intros [_ ->]%scan_entries_Return.
  split_and!; [done| | |].
  - intros e _. rewrite passes_filter_true.
    by setoid_rewrite should_ignore_false.
  - unfold _should_ignore_file. by intros ->.
  - intros Hnil e _. rewrite passes_filter_true.
    unfold _should_ignore_file. rewrite Hnil. cbn.
    split; [intros (size & ? & ? & _)|intros (size & ? & ?)]; exists size; eauto.
Qed.

(** C3 (what the code does). In the directory with the dangling link the
    file [b.txt] is discovered, has six bytes, which is at least the
    minimum of one, and a name that no pattern excludes; yet it never
    becomes a candidate: reading the size of [link], listed before it,
    raises and ends the loop. *)
Theorem dangling_link_hides_candidate :
  ("/data", "b.txt")
    ∈ entries (os_walk Sample.fs_dangling
                 (directory (__init__ Sample.fs_dangling "/data" None None))) ∧
  os_path_getsize Sample.fs_dangling (entry_path ("/data", "b.txt")) = inr 6%Z ∧
  (min_file_size (__init__ Sample.fs_dangling "/data" None None) ≤ 6)%Z ∧
  ignore_patterns (__init__ Sample.fs_dangling "/data" None None) = [] ∧
  scan_walk Sample.fs_dangling (__init__ Sample.fs_dangling "/data" None None)
    (os_walk Sample.fs_dangling
       (directory (__init__ Sample.fs_dangling "/data" None None))) []
  = Raise (mk_exception FileNotFoundError
             "[Errno 2] No such file or directory: '/data/link'").
Proof.
  split_and!; [|by vm_compute..].
  apply (bool_decide_unpack _). by vm_compute.
Qed.

Lemma calculate_hash_except fs self p cs :
  calculate_hash fs self p cs =
  match hash_body fs p cs with
  | Return digest => (Return (Some digest), [])
  | Raise e => except_clauses self p e
  end.
Proof. reflexivity. Qed.

Lemma calculate_hash_os_error fs self p cs err :
  hash_body fs p cs = Raise (os_exception err) →
  calculate_hash fs self p cs =
  (Return None,
   [if bool_decide (err_no err = EPERM ∨ err_no err = EACCES)
    then (WARNING, "Нет доступа к файлу: " +:+ p)
    else (ERROR, "Ошибка при чтении файла " +:+ p +:+ ": " +:+ err_str err)]).
Proof.
  intros Hbody. unfold calculate_hash. rewrite Hbody.
  destruct (isinstance _ PermissionError) eqn:Hperm.
  - apply os_exception_PermissionError in Hperm. by rewrite bool_decide_true.
  - rewrite os_exception_OSError, bool_decide_false; [done|].
    intros ?%os_exception_PermissionError. congruence.
Qed.

Lemma except_clauses_os_error self p err :
  except_clauses self p (os_exception err) =
  (Return None,
   [if bool_decide (err_no err = EPERM ∨ err_no err = EACCES)
    then (WARNING, "Нет доступа к файлу: " +:+ p)
    else (ERROR, "Ошибка при чтении файла " +:+ p +:+ ": " +:+ err_str err)]).
Proof.
  unfold except_clauses. destruct (isinstance _ PermissionError) eqn:Hperm.
  - apply os_exception_PermissionError in Hperm. by rewrite bool_decide_true.
  - rewrite os_exception_OSError, bool_decide_false; [done|].
    intros ?%os_exception_PermissionError. congruence.
Qed.

Lemma calculate_hash_call_inner rt fs self p cs :
  has_nul p = false → alloc_error rt cs = None →
  open_blocks rt p = false → endless rt p = false →
  calculate_hash_call rt fs self p cs
  = Some (calculate_hash fs self p (N.to_nat cs)).
Proof.
  intros Hnul Halloc Hopens Hends. unfold calculate_hash_call.
  rewrite Hnul, Halloc, Hopens, Hends.
  destruct (open_rb fs p) as [err|f] eqn:Hopen; [|done].
  rewrite calculate_hash_except. unfold hash_body. by rewrite Hopen.
Qed.

(** An exception that is no [OSError] passes the [except] clauses: a
    failed allocation of the read buffer leaves [calculate_hash]. *)
Lemma calculate_hash_call_alloc_failure rt fs self p f cs e :
  has_nul p = false → open_rb fs p = inr f → open_blocks rt p = false →
  alloc_error rt cs = Some e → isinstance e OSError = false →
  calculate_hash_call rt fs self p cs = Some (Raise e, []).
Proof.
  intros Hnul Hopen Hopens Halloc Hclass. unfold calculate_hash_call, except_clauses.
  rewrite Hnul, Hopen, Hopens, Halloc, Hclass.
  destruct (isinstance e PermissionError) eqn:Hperm; [|done].
  by destruct e as [[] ?].
Qed.

Lemma lookup_groups_of_dec fs self files h :
  groups_of fs self files !! h =
  if decide (1 < length (bucket fs self files h))
  then Some (bucket fs self files h) else None.
Proof.
  destruct (groups_of fs self files !! h) as [paths|] eqn:Hlookup.
  - apply lookup_groups_of in Hlookup as [-> Hlen]. by rewrite decide_True.
  - case_decide as Hlen; [|done].
    assert (groups_of fs self files !! h = Some (bucket fs self files h)) as Hsome
      by by apply lookup_groups_of.
    congruence.
Qed.

Lemma file_hash_ext fs1 fs2 self p :
  open_rb fs1 p = open_rb fs2 p → file_hash fs1 self p = file_hash fs2 self p.
Proof.
  intros Hopen. unfold file_hash, calculate_hash, hash_body. by rewrite Hopen.
Qed.

Lemma passes_filter_ext fs1 fs2 self e :
  os_path_getsize fs1 (entry_path e) = os_path_getsize fs2 (entry_path e) →
  passes_filter fs1 self e = passes_filter fs2 self e.
Proof. intros Hsize. unfold passes_filter. by rewrite Hsize. Qed.

Lemma groups_of_perm fs1 fs2 self files1 files2 h :
  (∀ p, open_rb fs1 p = open_rb fs2 p) →
  files1 ≡ₚ files2 →
  same_group (groups_of fs1 self files1 !! h) (groups_of fs2 self files2 !! h).
Proof.
  intros Hopen Hperm. unfold same_group. rewrite !lookup_groups_of_dec.
  assert (bucket fs1 self files1 h ≡ₚ bucket fs2 self files2 h) as Hbucket.
  { unfold bucket. rewrite Hperm. apply reflexive_eq, list_filter_iff.
    intros p. by rewrite (file_hash_ext fs1 fs2). }
  rewrite (Permutation_length Hbucket). by case_decide.
Qed.

(** C6. Two scans of the same files that discover them in different
    orders either both fail in the walk or both return, and then their
    results agree as mappings from fingerprints to sets of paths (each
    group of one is a permutation of the group of the other). *)
Theorem grouping_order_independent fs1 fs2 self sched1 sched2 :
  (∀ p, os_path_getsize fs1 p = os_path_getsize fs2 p) →
  (∀ p, open_rb fs1 p = open_rb fs2 p) →
  entries (os_walk fs1 (directory self)) ≡ₚ entries (os_walk fs2 (directory self)) →
  same_grouping (find_duplicate_files fs1 self sched1).1
                (find_duplicate_files fs2 self sched2).1.
Proof.
  intros Hsize Hopen Hperm. unfold same_grouping. rewrite !find_duplicate_files_result.
  set (es1 := entries (os_walk fs1 (directory self))) in *.
  set (es2 := entries (os_walk fs2 (directory self))) in *.
  assert (∀ files1, scan_entries fs1 self es1 [] = Return files1 →
            ∃ files2, scan_entries fs2 self es2 [] = Return files2 ∧ files1 ≡ₚ files2)
    as Hfwd.
  { intros files1 [Hall ->]%scan_entries_Return. eexists. split.
    - apply scan_entries_Return. split; [|done].
      rewrite <-Hperm. eapply Forall_impl; [done|].
      intros e. cbn beta. by rewrite Hsize.
    - cbn. rewrite Hperm. apply reflexive_eq. f_equal. apply list_filter_iff.
      intros e. by rewrite (passes_filter_ext fs1 fs2). }
  assert (∀ files2, scan_entries fs2 self es2 [] = Return files2 →
            ∃ files1, scan_entries fs1 self es1 [] = Return files1)
    as Hbwd.
  { intros files2 [Hall _]%scan_entries_Return. eexists.
    apply scan_entries_Return. split; [|done].
    rewrite Hperm. eapply Forall_impl; [done|].
    intros e. cbn beta. by rewrite Hsize. }
  destruct (scan_entries fs1 self es1 []) as [files1|ex1] eqn:Hscan1.
  - destruct (Hfwd files1 eq_refl) as (files2 & -> & Hfiles). cbn.
    assert (∀ h, same_group (groups_of fs1 self files1 !! h)
                            (groups_of fs2 self files2 !! h)) as Hgroups
      by (intros h; by apply groups_of_perm).
    split; [|done]. apply map_eq. intros h. unfold as_sets. rewrite !lookup_fmap.
    specialize (Hgroups h). unfold same_group in Hgroups.
    destruct (groups_of fs1 self files1 !! h), (groups_of fs2 self files2 !! h); try done.
    cbn. f_equal. by apply list_to_set_perm_L.
  - destruct (scan_entries fs2 self es2 []) as [files2|ex2] eqn:Hscan2; [|done].
    by destruct (Hbwd files2 eq_refl).
Qed.

(** C7. In a returned result a path lies in at most one group, and every
    path of a group hashes to the key of the group, which is the SHA-256
    digest of its content, was discovered with a size of at least the
    minimum, and has a name of which no ignore pattern is a substring. *)
Theorem group_invariants fs self sched d :
  (find_duplicate_files fs self sched).1 = Return d →
  (∀ h1 h2 paths1 paths2 p,
     d !! h1 = Some paths1 → d !! h2 = Some paths2 →
     p ∈ paths1 → p ∈ paths2 → h1 = h2) ∧
  (∀ h paths p,
     d !! h = Some paths → p ∈ paths →
     (calculate_hash fs self p default_chunk_size).1 = Return (Some h) ∧
     (∃ f, open_rb fs p = inr f ∧ h = SHA256.hexdigest (f_data f)) ∧
     ∃ e size,
       e ∈ entries (os_walk fs (directory self)) ∧ entry_path e = p ∧
       os_path_getsize fs p = inr size ∧ (min_file_size self ≤ size)%Z ∧
       ∀ pattern, pattern ∈ ignore_patterns self →
                  ¬ ∃ pre post, e.2 = pre +:+ pattern +:+ post).
Proof.
  intros Hd. split.
  - intros h1 h2 paths1 paths2 p
      [-> _]%(find_duplicate_files_lookup _ _ _ _ _ _ Hd)
      [-> _]%(find_duplicate_files_lookup _ _ _ _ _ _ Hd)
      [H1 _]%elem_of_bucket [H2 _]%elem_of_bucket.
    congruence.
  - intros h paths p [-> _]%(find_duplicate_files_lookup _ _ _ _ _ _ Hd)
      [Hh Hin]%elem_of_bucket.
    split; [by apply file_hash_calculate_hash|].
    split; [by apply (file_hash_Some fs self)|].
    apply elem_of_candidates in Hin as (e & He & <- & Hpass).
    apply passes_filter_true in Hpass as (size & ? & ? & Hname).
    exists e, size. split_and!; [done..|]. by apply should_ignore_false.
Qed.

Lemma bucket_candidates fs self es h :
  bucket fs self (entry_path <$> filter (λ e, passes_filter fs self e) es) h =
  entry_path <$>
    filter (λ e, passes_filter fs self e ∧ file_hash fs self (entry_path e) = Some h) es.
Proof.
  unfold bucket. induction es as [|e es IH]; [done|].
  rewrite !filter_cons. destruct (passes_filter fs self e) eqn:Hpass.
  - rewrite decide_True by done. rewrite fmap_cons, filter_cons.
    destruct (decide (file_hash fs self (entry_path e) = Some h)) as [Hh|Hh].
    + rewrite decide_True by done. by rewrite fmap_cons, IH.
    + rewrite decide_False by (by intros [_ ?]). done.
  - rewrite decide_False by (by intros ?). rewrite decide_False by (by intros [? _]). done.
Qed.

(** C9. Each returned group lists its paths in discovery order: it is
    the sequence of discovered files, filtered.  The order in which the
    hashing tasks finish does not change the result. *)
Theorem group_preserves_discovery_order fs self sched d h paths :
  (find_duplicate_files fs self sched).1 = Return d →
  d !! h = Some paths →
  paths = entry_path <$>
    filter (λ e, passes_filter fs self e ∧ file_hash fs self (entry_path e) = Some h)
           (entries (os_walk fs (directory self))) ∧
  (∀ e, file_hash fs self (entry_path e) = Some h ↔
        (calculate_hash fs self (entry_path e) default_chunk_size).1 = Return (Some h)) ∧
  ∀ sched', (find_duplicate_files fs self sched').1 = Return d.
Proof.
  intros Hd [-> _]%(find_duplicate_files_lookup _ _ _ _ _ _ Hd). split_and!.
  - apply bucket_candidates.
  - intros e. apply file_hash_calculate_hash.
  - intros sched'. rewrite find_duplicate_files_result.
    by rewrite find_duplicate_files_result in Hd.
Qed.

(** C8 (as amended). When the command line has no [--min-size], the
    finder that [main] builds has threshold 1024 and no file known to be
    smaller than 1024 bytes is in any group.  A finder constructed without
    [min_file_size] has threshold 1. *)
Theorem default_min_size_of_command_line fs cl sched :
  cl_min_size cl = None →
  min_file_size (main_finder fs cl) = 1024%Z ∧
  (∀ d h paths p size,
     (main_duplicates fs cl sched).1 = Return d →
     d !! h = Some paths → p ∈ paths →
     os_path_getsize fs p = inr size → (1024 ≤ size)%Z) ∧
  (∀ dir patterns, min_file_size (__init__ fs dir patterns None) = 1%Z).
Proof.
  intros Hcl.
  assert (min_file_size (main_finder fs cl) = 1024%Z) as Hmin.
  { unfold main_finder, parse_args, __init__. cbn. by rewrite Hcl. }
  split_and!; [done| |done].
  intros d h paths p size Hd Hlookup Hin Hsize. unfold main_duplicates in Hd.
  apply (find_duplicate_files_lookup _ _ _ _ _ _ Hd) in Hlookup as [-> _].
  apply elem_of_bucket in Hin as [_ Hin].
  apply elem_of_candidates in Hin as (e & _ & <- & Hpass).
  apply passes_filter_true in Hpass as (size' & Hsize' & Hle & _).
  rewrite Hsize in Hsize'. injection Hsize' as <-. by rewrite <-Hmin.
Qed.

(** C8 as stated fails for a caller of the constructor: without
    [min_file_size] the threshold is 1, and two files of six bytes are
    grouped. *)
Lemma default_min_size_counterexample :
  min_file_size (__init__ Sample.fs "/data" None None) ≠ 1024%Z ∧
  (find_duplicate_files Sample.fs (__init__ Sample.fs "/data" None None) []).1
    = Return Sample.groups ∧
  Sample.groups !! Sample.hello_digest
    = Some ["/data/a.txt"; "/data/b.txt"; "/data/sub/d2.tmp"] ∧
  os_path_getsize Sample.fs "/data/a.txt" = inr 6%Z ∧
  os_path_getsize Sample.fs "/data/b.txt" = inr 6%Z.
Proof. split_and!; [by vm_compute|by_vm_cast|by vm_compute..]. Qed.

(** X15. A file that cannot be read at hashing time is dropped, and the
    other files are grouped as if it were not there. *)
Lemma read_failure_isolated fs fs' self sched sched' p0 d :
  (∀ p, os_path_getsize fs p = os_path_getsize fs' p) →
  os_walk fs (directory self) = os_walk fs' (directory self) →
  (∀ p, p ≠ p0 → open_rb fs p = open_rb fs' p) →
  file_hash fs' self p0 = None →
  (find_duplicate_files fs self sched).1 = Return d →
  ∃ d', (find_duplicate_files fs' self sched').1 = Return d' ∧
    ∀ h paths', d' !! h = Some paths' ↔
      paths' = filter (λ p, p ≠ p0) (bucket fs self (candidates fs self) h) ∧
      1 < length paths'.
Proof.
  intros Hsize Hwalk Hopen Hp0 Hd.
  rewrite find_duplicate_files_result in Hd.
  destruct (scan_entries fs self _ []) as [files|ex] eqn:Hscan; [|done].
  apply scan_entries_Return in Hscan as [Hall _].
  assert (candidates fs' self = candidates fs self) as Hcand.
  { unfold candidates. rewrite <-Hwalk. f_equal. apply list_filter_iff.
    intros e. by rewrite (passes_filter_ext fs fs'). }
  exists (groups_of fs' self (candidates fs' self)). split.
  - rewrite find_duplicate_files_result, <-Hwalk.
    assert (scan_entries fs' self (entries (os_walk fs (directory self))) []
            = Return (candidates fs' self)) as ->; [|done].
    apply scan_entries_Return. split.
    + eapply Forall_impl; [done|]. intros e. cbn beta. by rewrite Hsize.
    + unfold candidates. by rewrite <-Hwalk.
  - intros h paths'. rewrite lookup_groups_of, Hcand.
    assert (bucket fs' self (candidates fs self) h
            = filter (λ p, p ≠ p0) (bucket fs self (candidates fs self) h)) as ->; [|done].
    unfold bucket. rewrite list_filter_filter. apply list_filter_iff. intros p.
    destruct (decide (p = p0)) as [->|Hne].
    + rewrite Hp0. split; [done|]. by intros [? _].
    + rewrite (file_hash_ext fs fs') by auto. split; [done|]. by intros [_ ?].
Qed.

(** C5 (what the code does). A directory with a dangling symbolic link:
    reading the size of the link fails and the scan ends with
    [FileNotFoundError], although [a.txt] and [b.txt] are readable
    duplicates. *)
Theorem dangling_link_ends_scan sched :
  find_duplicate_files Sample.fs_dangling
    (__init__ Sample.fs_dangling "/data" None None) sched
  = (Raise (mk_exception FileNotFoundError
              "[Errno 2] No such file or directory: '/data/link'"), []).
Proof. by vm_compute. Qed.


(** C10 (what the code does). With the ignore pattern [""] and a
    dangling symbolic link in the tree the scan raises instead of
    returning the empty mapping: the size is read before the name is
    tested. *)
Theorem empty_pattern_dangling_link sched :
  _should_ignore_file (__init__ Sample.fs_dangling "/data" (Some [""]) None) "link" = true ∧
  find_duplicate_files Sample.fs_dangling
    (__init__ Sample.fs_dangling "/data" (Some [""]) None) sched
  = (Raise (mk_exception FileNotFoundError
              "[Errno 2] No such file or directory: '/data/link'"), []).
Proof. by vm_compute. Qed.

(** ** The properties on the sample directory

    Each theorem with hypotheses is applied to the sample directory. *)

Lemma identical_files_share_one_group_witness :
  Sample.hello_digest = SHA256.hexdigest Sample.hello ∧
  Sample.hello_digest = Sample.hello_digest ∧
  (∃ paths, Sample.groups !! Sample.hello_digest = Some paths ∧
     entry_path ("/data", "a.txt") ∈ paths ∧ entry_path ("/data", "b.txt") ∈ paths) ∧
  (∀ h' paths', Sample.groups !! h' = Some paths' →
     entry_path ("/data", "a.txt") ∈ paths' ∨ entry_path ("/data", "b.txt") ∈ paths' →
     h' = Sample.hello_digest).
Proof.
  apply (identical_files_share_one_group Sample.fs Sample.finder [] Sample.groups
           0 2 ("/data", "a.txt") ("/data", "b.txt")
           (mk_file Sample.hello None) (mk_file Sample.hello None) 6%Z 6%Z
           Sample.hello_digest Sample.hello_digest);
    first [by_vm_cast | by vm_compute].
Defined.

Lemma groups_have_two_members_witness :
  2 ≤ length ["/data/a.txt"; "/data/b.txt"; "/data/sub/d2.tmp"] ∧
  length ["/data/a.txt"; "/data/b.txt"; "/data/sub/d2.tmp"] ≠ 1.
Proof.
  apply (groups_have_two_members Sample.fs Sample.finder [] Sample.groups
           Sample.hello_digest);
    first [by_vm_cast | by vm_compute].
Defined.

Lemma candidate_iff_size_and_name_witness :
  ["/data/a.txt"; "/data/c.txt"; "/data/b.txt"; "/data/sub/d2.tmp"; "/data/sub/locked"]
  = entry_path <$> filter (λ e, passes_filter Sample.fs Sample.finder e)
                          (entries (os_walk Sample.fs "/data")) ∧
  (∀ filename, _should_ignore_file Sample.finder filename = false).
Proof.
  pose proof (candidate_iff_size_and_name Sample.fs Sample.finder
                (os_walk Sample.fs "/data")
                ["/data/a.txt"; "/data/c.txt"; "/data/b.txt";
                 "/data/sub/d2.tmp"; "/data/sub/locked"]) as Hthm.
  destruct Hthm as (Hfiles & _ & Hnone & _); [by vm_compute|].
  split; [exact Hfiles|]. apply Hnone. reflexivity.
Defined.

Lemma grouping_order_independent_witness :
  same_grouping (find_duplicate_files Sample.fs Sample.finder []).1
                (find_duplicate_files Sample.fs_reordered Sample.finder [3; 1]).1.
Proof.
  apply (grouping_order_independent Sample.fs Sample.fs_reordered Sample.finder [] [3; 1]).
  - intros p. reflexivity.
  - intros p. reflexivity.
  - apply (bool_decide_unpack _). by vm_compute.
Defined.

Lemma group_invariants_witness :
  (calculate_hash Sample.fs Sample.finder "/data/b.txt" default_chunk_size).1
    = Return (Some Sample.hello_digest) ∧
  (∃ f, open_rb Sample.fs "/data/b.txt" = inr f ∧
        Sample.hello_digest = SHA256.hexdigest (f_data f)) ∧
  ∃ e size,
    e ∈ entries (os_walk Sample.fs (directory Sample.finder)) ∧
    entry_path e = "/data/b.txt" ∧
    os_path_getsize Sample.fs "/data/b.txt" = inr size ∧
    (min_file_size Sample.finder ≤ size)%Z ∧
    ∀ pattern, pattern ∈ ignore_patterns Sample.finder →
               ¬ ∃ pre post, e.2 = pre +:+ pattern +:+ post.
Proof.
  assert ((find_duplicate_files Sample.fs Sample.finder []).1 = Return Sample.groups)
    as Hd by by_vm_cast.
  apply (proj2 (group_invariants Sample.fs Sample.finder [] Sample.groups Hd)
           Sample.hello_digest ["/data/a.txt"; "/data/b.txt"; "/data/sub/d2.tmp"]).
  - by vm_compute.
  - apply (bool_decide_unpack _). by vm_compute.
Defined.

Lemma default_min_size_of_command_line_witness :
  min_file_size (main_finder Sample.fs (mk_command_line "/data" None None)) = 1024%Z ∧
  min_file_size (__init__ Sample.fs "/data" None None) = 1%Z.
Proof.
  pose proof (default_min_size_of_command_line Sample.fs
                (mk_command_line "/data" None None) [] eq_refl) as (Hcli & _ & Hctor).
  split; [exact Hcli|apply Hctor].
Defined.

Lemma group_preserves_discovery_order_witness :
  ["/data/a.txt"; "/data/b.txt"; "/data/sub/d2.tmp"]
  = entry_path <$>
      filter (λ e, passes_filter Sample.fs Sample.finder e ∧
                   file_hash Sample.fs Sample.finder (entry_path e)
                     = Some Sample.hello_digest)
             (entries (os_walk Sample.fs (directory Sample.finder))) ∧
  ∀ sched', (find_duplicate_files Sample.fs Sample.finder sched').1 = Return Sample.groups.
Proof.
  pose proof (group_preserves_discovery_order Sample.fs Sample.finder [] Sample.groups
                Sample.hello_digest ["/data/a.txt"; "/data/b.txt"; "/data/sub/d2.tmp"])
    as Hthm.
  destruct Hthm as (Hpaths & _ & Hsched); [by_vm_cast|by vm_compute|].
  split; [exact Hpaths|exact Hsched].
Defined.

(** ** More on [calculate_hash] *)

Lemma calculate_hash_no_fault fs self p data cs :
  open_rb fs p = inr (mk_file data None) →
  0 < cs →
  calculate_hash fs self p cs = (Return (Some (SHA256.hexdigest data)), []).
Proof.
  intros Hopen Hcs. unfold calculate_hash, hash_body. rewrite Hopen.
  cbn [f_data]. by rewrite read_loop_no_fault by (done || lia).
Qed.

(** X1. A regular file at a path without NUL character that is read
    without fault hashes to the SHA-256 hex digest of its whole content,
    whatever the positive chunk size whose buffer can be allocated, and
    nothing is logged. *)
Theorem calculate_hash_whole_content rt fs self p data cs :
  has_nul p = false →
  open_blocks rt p = false → endless rt p = false →
  open_rb fs p = inr (mk_file data None) →
  (0 < cs)%N →
  alloc_error rt cs = None →
  calculate_hash_call rt fs self p cs
  = Some (Return (Some (SHA256.hexdigest data)), []).
Proof.
  intros Hnul Hopens Hends Hopen Hcs Halloc.
  rewrite calculate_hash_call_inner by done.
  f_equal. apply calculate_hash_no_fault; [done|lia].
Qed.

Lemma read_loop_fault (fuel : nat) (data : list byte) (k : nat) (e : os_error)
    (cs : nat) (h : hasher) :
  0 < cs → length data < fuel →
  read_loop fuel (mk_file data (Some (k, e))) cs h =
  if decide (k = 0 ∨ (k - 1) * cs < length data)
  then Raise (os_exception e) else Return (h ++ data).
Proof.
  intros Hcs. revert data k h.
  induction fuel as [|fuel IH]; intros data k h Hfuel; [lia|].
  cbn [read_loop]. unfold f_read. cbn [f_fault f_data].
  destruct k as [|k]; [by rewrite decide_True by auto|].
  destruct (truthy_bytes (take cs data)) eqn:Htruthy.
  - assert (data ≠ []) as Hne by (intros ->; by destruct cs).
    assert (0 < length data) as Hlen by (destruct data; [done|cbn; lia]).
    rewrite IH by (rewrite length_drop; lia).
    rewrite length_drop. unfold update.
    rewrite <-(assoc_L (++)), take_drop.
    rewrite Nat.sub_succ, Nat.sub_0_r.
    destruct (decide (k = 0 ∨ (k - 1) * cs < length data - cs)) as [Hk|Hk].
    + rewrite decide_True; [done|]. right.
      destruct Hk as [->|Hk]; [lia|]. destruct k as [|k']; [lia|].
      rewrite Nat.sub_succ, Nat.sub_0_r in Hk. rewrite Nat.mul_succ_l. lia.
    + rewrite decide_False; [done|]. intros [?|Hlt]; [lia|]. apply Hk.
      destruct k as [|k']; [by left|right].
      rewrite Nat.sub_succ, Nat.sub_0_r. rewrite Nat.mul_succ_l in Hlt. lia.
  - apply truthy_bytes_false in Htruthy.
    assert (data = []) as ->.
    { destruct data as [|b data]; [done|]. destruct cs; [lia|done]. }
    rewrite decide_False by (cbn; lia). by rewrite (right_id_L [] (++)).
Qed.

Lemma calculate_hash_fault fs self p data k e cs :
  open_rb fs p = inr (mk_file data (Some (k, e))) →
  0 < cs →
  (calculate_hash fs self p cs).1 =
  Return (if decide (k = 0 ∨ (k - 1) * cs < length data)
          then None else Some (SHA256.hexdigest data)).
Proof.
  intros Hopen Hcs. unfold calculate_hash, hash_body. rewrite Hopen.
  cbn [f_data]. rewrite read_loop_fault by (done || lia).
  case_decide; [|done]. cbn [mbind result_bind].
  destruct (isinstance _ PermissionError); [done|].
  by rewrite os_exception_OSError.
Qed.

(** X2. With a positive chunk size whose buffer can be allocated, a
    regular file at a path without NUL character whose reading is set to
    fail with an I/O error after [k] successful calls of [read] hashes to
    [None] exactly when the loop gets that far: when [k = 0] or the first
    [k - 1] chunks do not exhaust the content.  Otherwise the fault lies
    beyond the end of the file and the digest of the whole content is
    returned.  So under these conditions the result is [None] or the
    digest of the whole content, never a digest of a part of it. *)
Theorem calculate_hash_read_fault rt fs self p data k e cs :
  has_nul p = false →
  open_blocks rt p = false → endless rt p = false →
  open_rb fs p = inr (mk_file data (Some (k, e))) →
  (0 < cs)%N →
  alloc_error rt cs = None →
  fst <$> calculate_hash_call rt fs self p cs =
  Some (Return (if decide (k = 0 ∨ (k - 1) * N.to_nat cs < length data)
                then None else Some (SHA256.hexdigest data))).
Proof.
  intros Hnul Hopens Hends Hopen Hcs Halloc.
  rewrite calculate_hash_call_inner by done. cbn [fmap option_fmap option_map].
  f_equal. apply (calculate_hash_fault _ _ _ _ _ e); [done|lia].
Qed.

(** X3. With chunk size 0 the first [read] returns no bytes and the loop
    stops at once: every file that can be opened, and whose first read
    does not fail, hashes to the digest of the empty string. *)
Theorem calculate_hash_chunk_size_zero fs self p f :
  open_rb fs p = inr f →
  (∀ e, f_fault f ≠ Some (0, e)) →
  calculate_hash fs self p 0 = (Return (Some (SHA256.hexdigest [])), []).
Proof.
  intros Hopen Hfault. unfold calculate_hash, hash_body. rewrite Hopen.
  cbn [read_loop]. unfold f_read.
  destruct (f_fault f) as [[[|k] e]|]; [by destruct (Hfault e)|done..].
Qed.

Lemma calculate_hash_whole_content_witness :
  calculate_hash_call Sample.rt Sample.fs Sample.finder "/data/a.txt" 4
  = Some (Return (Some (SHA256.hexdigest Sample.hello)), []) ∧
  calculate_hash_call Sample.rt Sample.fs Sample.finder "/data/a.txt" 8192
  = Some (Return (Some (SHA256.hexdigest Sample.hello)), []).
Proof.
  split.
  - apply (calculate_hash_whole_content Sample.rt Sample.fs Sample.finder
             "/data/a.txt" Sample.hello 4); first [reflexivity|lia].
  - apply (calculate_hash_whole_content Sample.rt Sample.fs Sample.finder
             "/data/a.txt" Sample.hello 8192); first [reflexivity|lia].
Defined.

Lemma calculate_hash_read_fault_witness :
  fst <$> calculate_hash_call Sample.rt Sample.fs Sample.finder "/data/sub/bad" 4
  = Some (Return None) ∧
  fst <$> calculate_hash_call Sample.rt Sample.fs_late_fault Sample.finder
            "/data/sub/d2.tmp" 4
  = Some (Return (Some (SHA256.hexdigest Sample.hello))) ∧
  fst <$> calculate_hash_call Sample.rt Sample.fs_late_fault Sample.finder
            "/data/sub/d2.tmp" 2
  = Some (Return None).
Proof.
  split_and!.
  - apply (calculate_hash_read_fault Sample.rt Sample.fs Sample.finder
             "/data/sub/bad" Sample.hello 0
             (mk_os_error EIO "[Errno 5] Input/output error") 4);
      first [reflexivity|lia].
  - apply (calculate_hash_read_fault Sample.rt Sample.fs_late_fault Sample.finder
             "/data/sub/d2.tmp" Sample.hello 3 Sample.io_error 4);
      first [reflexivity|lia].
  - apply (calculate_hash_read_fault Sample.rt Sample.fs_late_fault Sample.finder
             "/data/sub/d2.tmp" Sample.hello 3 Sample.io_error 2);
      first [reflexivity|lia].
Defined.

Lemma calculate_hash_chunk_size_zero_witness :
  calculate_hash Sample.fs Sample.finder "/data/c.txt" 0
  = (Return (Some (SHA256.hexdigest [])), []).
Proof.
  apply (calculate_hash_chunk_size_zero Sample.fs Sample.finder "/data/c.txt"
           (mk_file Sample.world None)); [reflexivity|done].
Defined.

(** ** More on the scan *)

Lemma calculate_hash_log fs self p cs :
  length (calculate_hash fs self p cs).2 =
  match (calculate_hash fs self p cs).1 with
  | Return (Some _) => 0
  | _ => 1
  end ∧
  Forall (λ r : log_record, r.1 = WARNING ∨ r.1 = ERROR) (calculate_hash fs self p cs).2.
Proof.
  unfold calculate_hash. destruct (hash_body fs p cs) as [digest|e] eqn:Hbody.
  - by split.
  - apply hash_body_Raise in Hbody as [oe ->].
    destruct (isinstance _ PermissionError).
    + split; [done|]. apply Forall_singleton. by left.
    + rewrite os_exception_OSError. split; [done|]. apply Forall_singleton. by right.
Qed.

Lemma calculate_hash_log_record fs self p cs :
  match (calculate_hash fs self p cs).1 with
  | Return (Some _) => (calculate_hash fs self p cs).2 = []
  | _ =>
      (calculate_hash fs self p cs).2 = [(WARNING, "Нет доступа к файлу: " +:+ p)] ∨
      ∃ detail,
        (calculate_hash fs self p cs).2
        = [(ERROR, "Ошибка при чтении файла " +:+ p +:+ ": " +:+ detail)]
  end.
Proof.
  unfold calculate_hash. destruct (hash_body fs p cs) as [digest|e] eqn:Hbody; [done|].
  apply hash_body_Raise in Hbody as [oe ->].
  destruct (isinstance _ PermissionError); [by left|].
  rewrite os_exception_OSError. right. by eexists.
Qed.

(** X4. The log of a scan that returns is, up to the order in which the
    tasks finished, the records of its candidates put together: none for
    a candidate that [calculate_hash] hashed, and for each candidate that
    it could not read exactly one record, a warning or an error, that
    names the path of that candidate. *)
Theorem scan_logs_each_unreadable_candidate fs self sched d :
  (find_duplicate_files fs self sched).1 = Return d →
  (find_duplicate_files fs self sched).2 ≡ₚ
    concat ((λ p, (calculate_hash fs self p default_chunk_size).2)
              <$> candidates fs self) ∧
  ∀ p,
    match (calculate_hash fs self p default_chunk_size).1 with
    | Return (Some _) => (calculate_hash fs self p default_chunk_size).2 = []
    | _ =>
        (calculate_hash fs self p default_chunk_size).2
        = [(WARNING, "Нет доступа к файлу: " +:+ p)] ∨
        ∃ detail,
          (calculate_hash fs self p default_chunk_size).2
          = [(ERROR, "Ошибка при чтении файла " +:+ p +:+ ": " +:+ detail)]
    end.
Proof.
  rewrite find_duplicate_files_result.
  destruct (scan_entries fs self _ []) as [files|ex] eqn:Hscan; [|done]. intros _.
  pose proof (find_duplicate_files_log fs self sched files Hscan) as Hlog.
  apply scan_entries_Return in Hscan as [_ Hfiles].
  rewrite app_nil_l in Hfiles. fold (candidates fs self) in Hfiles. subst files.
  split; [done|]. intros p. apply calculate_hash_log_record.
Qed.

(** X5. When the size of some discovered file cannot be read, the scan
    raises the exception of the first such file in discovery order; by
    then no file has been hashed and nothing has been logged. *)
Theorem scan_raises_first_size_error fs self sched es1 e es2 err :
  entries (os_walk fs (directory self)) = es1 ++ e :: es2 →
  Forall (λ e, is_Some (maybe inr (os_path_getsize fs (entry_path e)))) es1 →
  os_path_getsize fs (entry_path e) = inl err →
  find_duplicate_files fs self sched = (Raise (os_exception err), []).
Proof.
  intros Hentries Hes1 Herr.
  assert (scan_entries fs self (entries (os_walk fs (directory self))) []
          = Raise (os_exception err)) as Hscan.
  { apply scan_entries_Raise. by exists es1, e, es2, err. }
  unfold find_duplicate_files. rewrite scan_walk_entries. by rewrite Hscan.
Qed.

(** X6. When the walk completes and no discovered file passes the filter
    (in particular when the walk yields nothing, as for a directory that
    does not exist), the scan returns the empty mapping and logs
    nothing. *)
Theorem scan_without_candidates fs self sched :
  Forall (λ e, is_Some (maybe inr (os_path_getsize fs (entry_path e))) ∧
               passes_filter fs self e = false)
         (entries (os_walk fs (directory self))) →
  find_duplicate_files fs self sched = (Return ∅, []).
Proof.
  intros Hall.
  assert (scan_entries fs self (entries (os_walk fs (directory self))) [] = Return [])
    as Hscan.
  { apply scan_entries_Return. split.
    - eapply Forall_impl; [done|]. by intros e [? _].
    - induction Hall as [|e es [_ He] _ IH]; [done|].
      rewrite filter_cons, decide_False; [done|]. rewrite He. by intros []. }
  pose proof (find_duplicate_files_result fs self sched) as Hres.
  pose proof (find_duplicate_files_log fs self sched [] Hscan) as Hlog.
  rewrite Hscan in Hres. apply Permutation_nil_r in Hlog.
  destruct (find_duplicate_files fs self sched) as [r log].
  cbn in Hres, Hlog. by subst r log.
Qed.

Lemma should_ignore_mono self1 self2 filename :
  ignore_patterns self1 ⊆ ignore_patterns self2 →
  _should_ignore_file self1 filename = true →
  _should_ignore_file self2 filename = true.
Proof.
  unfold _should_ignore_file. rewrite !existsb_exists.
  intros Hsub (pattern & Hin & Hmatch). exists pattern. split; [|done].
  apply list_elem_of_In, Hsub. by apply list_elem_of_In.
Qed.

Lemma filter_sublist_impl {A} (P Q : A → Prop)
    `{∀ x, Decision (P x)} `{∀ x, Decision (Q x)} (l : list A) :
  (∀ x, P x → Q x) → filter P l `sublist_of` filter Q l.
Proof.
  intros HPQ. induction l as [|x l IH]; [done|].
  rewrite !filter_cons. destruct (decide (P x)) as [HP|HP].
  - rewrite decide_True by auto. by constructor.
  - case_decide; [by constructor|done].
Qed.

Lemma filter_sublist_mono {A} (P : A → Prop) `{∀ x, Decision (P x)} (l1 l2 : list A) :
  l1 `sublist_of` l2 → filter P l1 `sublist_of` filter P l2.
Proof.
  induction 1 as [|x l1 l2 _ IH|x l1 l2 _ IH]; [done| |].
  - rewrite !filter_cons. case_decide; [by constructor|done].
  - rewrite filter_cons. case_decide; [by constructor|done].
Qed.

(** X7. A stricter filter only removes: with a larger minimum size and
    more ignore patterns, the scan still returns, and each of its groups
    is a subsequence of the group with the same fingerprint of the
    laxer scan. *)
Theorem stricter_filter_shrinks_groups fs self1 self2 sched1 sched2 d1 :
  directory self1 = directory self2 →
  (min_file_size self1 ≤ min_file_size self2)%Z →
  ignore_patterns self1 ⊆ ignore_patterns self2 →
  (find_duplicate_files fs self1 sched1).1 = Return d1 →
  ∃ d2, (find_duplicate_files fs self2 sched2).1 = Return d2 ∧
    ∀ h paths2, d2 !! h = Some paths2 →
      ∃ paths1, d1 !! h = Some paths1 ∧ paths2 `sublist_of` paths1.
Proof.
  intros Hdir Hmin Hpat Hd1.
  pose proof Hd1 as Hscan. rewrite find_duplicate_files_result in Hscan.
  destruct (scan_entries fs self1 _ []) as [files1|ex] eqn:Hscan1; [|done].
  apply scan_entries_Return in Hscan1 as [Hall _].
  assert (candidates fs self2 `sublist_of` candidates fs self1) as Hsub.
  { unfold candidates. rewrite <-Hdir. apply fmap_sublist, filter_sublist_impl.
    intros e. rewrite !Is_true_true, !passes_filter_true.
    intros (size & Hsize & Hle & Hign). exists size. split_and!; [done|lia|].
    destruct (_should_ignore_file self1 e.2) eqn:Hign1; [|done].
    by rewrite (should_ignore_mono self1 self2) in Hign. }
  exists (groups_of fs self2 (candidates fs self2)). split.
  - rewrite find_duplicate_files_result, <-Hdir.
    assert (scan_entries fs self2 (entries (os_walk fs (directory self1))) []
            = Return (candidates fs self2)) as ->; [|done].
    apply scan_entries_Return. split; [done|]. unfold candidates. by rewrite Hdir.
  - intros h paths2 [-> Hlen]%lookup_groups_of.
    assert (bucket fs self2 (candidates fs self2) h
            `sublist_of` bucket fs self1 (candidates fs self1) h) as Hbucket.
    { unfold bucket. by apply filter_sublist_mono. }
    exists (bucket fs self1 (candidates fs self1) h). split; [|done].
    apply (find_duplicate_files_lookup _ _ _ _ _ _ Hd1). split; [done|].
    apply sublist_length in Hbucket. lia.
Qed.

(** ** The result in insertion order *)

Lemma elem_of_first_occurrences (l : list string) (x : string) :
  x ∈ first_occurrences l ↔ x ∈ l.
Proof.
  induction l as [|a l IH]; [done|]. cbn [first_occurrences].
  rewrite !elem_of_cons, list_elem_of_filter, IH. split.
  - intros [->|[_ ?]]; auto.
  - intros [->|?]; [by left|]. destruct (decide (x = a)); auto.
Qed.

Lemma NoDup_first_occurrences (l : list string) : NoDup (first_occurrences l).
Proof.
  induction l as [|a l IH]; [constructor|]. cbn [first_occurrences].
  constructor; [|by apply NoDup_filter].
  by intros [? _]%list_elem_of_filter.
Qed.

Lemma first_occurrences_snoc (l : list string) (x : string) :
  first_occurrences (l ++ [x]) =
  if decide (x ∈ l) then first_occurrences l else first_occurrences l ++ [x].
Proof.
  induction l as [|a l IH]; [done|]. cbn [app first_occurrences]. rewrite IH.
  destruct (decide (x ∈ l)) as [Hin|Hin].
  - rewrite decide_True; [done|]. by right.
  - rewrite filter_app, filter_cons, filter_nil.
    destruct (decide (x = a)) as [->|Hne].
    + rewrite (decide_True (P := a ∈ a :: l)) by (apply elem_of_cons; by left).
      rewrite (decide_False (P := a ≠ a)) by auto.
      by rewrite (right_id_L [] (++)).
    + rewrite (decide_True (P := x ≠ a)) by done.
      rewrite (decide_False (P := x ∈ a :: l)); [done|].
      by intros [?|?]%elem_of_cons.
Qed.

Lemma od_append_known (g g' : string → list string) (ks : list string) (h p : string) :
  NoDup ks → h ∈ ks →
  g' h = g h ++ [p] → (∀ k, k ≠ h → g' k = g k) →
  od_append ((λ k, (k, g k)) <$> ks) h p = (λ k, (k, g' k)) <$> ks.
Proof.
  intros Hnodup Hin Hh Hother. induction ks as [|k ks IH]; [by apply elem_of_nil in Hin|].
  apply NoDup_cons in Hnodup as [Hk Hnodup]. cbn [fmap list_fmap od_append].
  destruct (decide (k = h)) as [->|Hne].
  - rewrite Hh. f_equal. apply list_fmap_ext. intros i k Hik.
    rewrite Hother; [done|]. intros ->. apply Hk. by eapply list_elem_of_lookup_2.
  - rewrite Hother by done. f_equal. apply IH; [done|].
    by apply elem_of_cons in Hin as [->|?].
Qed.

Lemma od_append_new (g g' : string → list string) (ks : list string) (h p : string) :
  h ∉ ks → g' h = [p] → (∀ k, k ≠ h → g' k = g k) →
  od_append ((λ k, (k, g k)) <$> ks) h p = (λ k, (k, g' k)) <$> (ks ++ [h]).
Proof.
  intros Hin Hh Hother. induction ks as [|k ks IH].
  - cbn. by rewrite Hh.
  - apply not_elem_of_cons in Hin as [Hne Hin]. cbn [fmap list_fmap od_append app].
    rewrite decide_False by done. rewrite Hother by done. f_equal. by apply IH.
Qed.

Lemma bucket_snoc fs self files p h :
  bucket fs self (files ++ [p]) h =
  bucket fs self files h ++ (if decide (file_hash fs self p = Some h) then [p] else []).
Proof. unfold bucket. by rewrite filter_app, filter_cons, filter_nil. Qed.

Lemma bucket_nil_iff fs self files h :
  bucket fs self files h = [] ↔ h ∉ omap (file_hash fs self) files.
Proof.
  unfold bucket. induction files as [|p files IH]; cbn [omap list_omap].
  - split; [intros _; apply not_elem_of_nil|done].
  - rewrite filter_cons. destruct (file_hash fs self p) as [h'|] eqn:Hp.
    + rewrite not_elem_of_cons, <-IH. case_decide as Hh.
      * split; [done|]. intros [Hne _]. congruence.
      * split; [|by intros [_ ?]]. intros ?. split; [congruence|done].
    + by rewrite decide_False.
Qed.

(** The grouping loop on the ordered dictionary. *)
Lemma group_fold_ordered fs self files :
  foldl group_step_ordered [] (zip files (file_hash fs self <$> files)) =
  (λ h, (h, bucket fs self files h)) <$> first_occurrences (omap (file_hash fs self) files).
Proof.
  induction files as [|p files IH] using rev_ind; [done|].
  rewrite fmap_app, zip_with_app by by rewrite length_fmap.
  rewrite foldl_app, IH, omap_app. cbn [fmap list_fmap zip_with foldl omap list_omap].
  unfold group_step_ordered. destruct (file_hash fs self p) as [h|] eqn:Hp.
  - rewrite (file_hash_truthy _ _ _ _ Hp). cbn [app]. rewrite first_occurrences_snoc.
    destruct (decide (h ∈ omap (file_hash fs self) files)) as [Hin|Hin].
    + apply od_append_known.
      * apply NoDup_first_occurrences.
      * by apply elem_of_first_occurrences.
      * by rewrite bucket_snoc, Hp, decide_True.
      * intros k Hk. rewrite bucket_snoc, Hp, decide_False by congruence.
        by rewrite (right_id_L [] (++)).
    + apply od_append_new.
      * by rewrite elem_of_first_occurrences.
      * rewrite bucket_snoc, Hp, decide_True by done.
        by rewrite (proj2 (bucket_nil_iff fs self files h) Hin).
      * intros k Hk. rewrite bucket_snoc, Hp, decide_False by congruence.
        by rewrite (right_id_L [] (++)).
  - cbn. rewrite (right_id_L [] (++)). apply list_fmap_ext. intros i h _.
    rewrite bucket_snoc, Hp, decide_False by done. by rewrite (right_id_L [] (++)).
Qed.

Lemma find_duplicate_files_ordered_eq fs self sched :
  find_duplicate_files_ordered fs self sched =
  match scan_entries fs self (entries (os_walk fs (directory self))) [] with
  | Return files =>
      (Return (ordered_groups fs self files), (find_duplicate_files fs self sched).2)
  | Raise e => (Raise e, [])
  end.
Proof.
  unfold find_duplicate_files_ordered, find_duplicate_files. rewrite scan_walk_entries.
  destruct (scan_entries _ _ _ _) as [files|e]; [|done].
  pose proof (executor_map_results
    (λ p, calculate_hash fs self p default_chunk_size) files sched) as Hres.
  destruct (executor_map _ files sched) as [futures log]. cbn [fst] in Hres.
  assert (futures = Return <$> (file_hash fs self <$> files)) as ->.
  { rewrite Hres, <-list_fmap_compose. apply list_fmap_ext.
    intros i p _. apply calculate_hash_file_hash. }
  rewrite results_of_Return. cbn [snd]. by rewrite group_fold_ordered.
Qed.

Lemma NoDup_ordered_groups fs self files : NoDup (ordered_groups fs self files).*1.
Proof.
  unfold ordered_groups.
  set (ks := first_occurrences _).
  assert (NoDup ks) as Hks by apply NoDup_first_occurrences.
  clearbody ks. induction Hks as [|k ks Hk _ IH]; [constructor|].
  rewrite fmap_cons, filter_cons. case_decide; [|done].
  rewrite fmap_cons. constructor; [|done]. cbn.
  intros ((h & paths) & Heq & [_ (k' & [= -> ->] & Hin)%list_elem_of_fmap]%list_elem_of_filter)%list_elem_of_fmap.
  cbn in Heq. by subst.
Qed.

Lemma elem_of_ordered_groups fs self files h paths :
  (h, paths) ∈ ordered_groups fs self files ↔
  paths = bucket fs self files h ∧ 1 < length paths.
Proof.
  unfold ordered_groups. rewrite list_elem_of_filter, list_elem_of_fmap. cbn [snd]. split.
  - intros [Hlen (k & [= -> ->] & _)]. done.
  - intros [-> Hlen]. split; [done|]. exists h. split; [done|].
    apply elem_of_first_occurrences.
    destruct (decide (h ∈ omap (file_hash fs self) files)) as [|Hin]; [done|].
    apply bucket_nil_iff in Hin. rewrite Hin in Hlen. cbn in Hlen. lia.
Qed.

(** X8. The ordered result lists one item for each fingerprint shared by
    two candidates or more, in the order in which the fingerprints are
    first met in the candidate list, each with its paths in discovery
    order; its keys are distinct. *)
Theorem ordered_result_in_discovery_order fs self sched items :
  (find_duplicate_files_ordered fs self sched).1 = Return items →
  items = filter (λ kv, 1 < length kv.2)
            ((λ h, (h, bucket fs self (candidates fs self) h)) <$>
               first_occurrences (omap (file_hash fs self) (candidates fs self))) ∧
  NoDup items.*1.
Proof.
  rewrite find_duplicate_files_ordered_eq.
  destruct (scan_entries fs self _ []) as [files|ex] eqn:Hscan; [|done].
  apply scan_entries_Return in Hscan as [_ Hfiles].
  rewrite app_nil_l in Hfiles. fold (candidates fs self) in Hfiles. subst files.
  intros [= <-]. split; [done|apply NoDup_ordered_groups].
Qed.

(** The ordered result and the mapping are the same dictionary: the two
    scans raise the same exception or the mapping is the ordered result
    read as a map, and they log the same records. *)
Lemma ordered_result_is_the_mapping fs self sched :
  find_duplicate_files fs self sched =
  match find_duplicate_files_ordered fs self sched with
  | (Return items, log) => (Return (list_to_map items), log)
  | (Raise e, log) => (Raise e, log)
  end.
Proof.
  rewrite find_duplicate_files_ordered_eq.
  pose proof (find_duplicate_files_result fs self sched) as Hres.
  destruct (scan_entries fs self _ []) as [files|ex] eqn:Hscan.
  - destruct (find_duplicate_files fs self sched) as [r log]. cbn in Hres. subst r.
    cbn [snd]. do 2 f_equal. apply map_eq. intros h.
    destruct (groups_of fs self files !! h) as [paths|] eqn:Hlookup.
    + symmetry. apply elem_of_list_to_map; [apply NoDup_ordered_groups|].
      apply elem_of_ordered_groups. by apply lookup_groups_of.
    + destruct (list_to_map (ordered_groups fs self files) !! h) as [paths|] eqn:Hitems;
        [|done].
      apply elem_of_list_to_map in Hitems; [|apply NoDup_ordered_groups].
      apply elem_of_ordered_groups, lookup_groups_of in Hitems. congruence.
  - unfold find_duplicate_files in *. rewrite scan_walk_entries, Hscan in *. done.
Qed.

(** ** The report *)

Lemma sum_sizes_Return fs file_paths acc :
  Forall (λ p, is_Some (maybe inr (os_path_getsize fs p))) file_paths →
  sum_sizes fs file_paths acc = Return (acc + total_size fs file_paths)%Z.
Proof.
  intros Hall. revert acc. induction Hall as [|p ps [size Hp] _ IH]; intros acc.
  - cbn. f_equal. lia.
  - cbn [sum_sizes]. unfold total_size. rewrite fmap_cons. cbn [foldr].
    unfold known_size at 1. destruct (os_path_getsize fs p) as [err|size']; [done|].
    rewrite IH. f_equal. unfold total_size. lia.
Qed.

Lemma sum_sizes_Raise fs ps1 p ps2 err acc :
  Forall (λ p, is_Some (maybe inr (os_path_getsize fs p))) ps1 →
  os_path_getsize fs p = inl err →
  sum_sizes fs (ps1 ++ p :: ps2) acc = Raise (os_exception err).
Proof.
  intros Hall Hp. revert acc. induction Hall as [|q qs [size Hq] _ IH]; intros acc.
  - cbn. by rewrite Hp.
  - cbn [app sum_sizes]. destruct (os_path_getsize fs q); [done|]. apply IH.
Qed.

Lemma print_lines_accept rt out lines :
  (∀ out line, stdout_error rt out line = None) →
  print_lines rt out lines = (Return (), out ++ lines).
Proof.
  intros Haccept. revert out. induction lines as [|line lines IH]; intros out.
  - cbn. by rewrite (right_id_L [] (++)).
  - cbn [print_lines]. unfold print_line. rewrite Haccept, IH.
    by rewrite <-(assoc_L (++)).
Qed.

Lemma print_groups_Return rt fs i items out :
  (∀ out line, stdout_error rt out line = None) →
  Forall (λ kv, Forall (λ p, is_Some (maybe inr (os_path_getsize fs p))) kv.2) items →
  print_groups rt fs i items out =
  (Return (),
   out ++ concat (imap (λ k kv, group_lines (i + k) kv.1 kv.2 (total_size fs kv.2)) items)).
Proof.
  intros Haccept Hall. revert i out.
  induction Hall as [|[h paths] items Hpaths _ IH]; intros i out.
  - cbn. by rewrite (right_id_L [] (++)).
  - cbn [print_groups]. rewrite sum_sizes_Return by done.
    rewrite print_lines_accept by done. rewrite IH.
    cbn [imap concat fst snd]. rewrite Nat.add_0_r, Z.add_0_l, <-(assoc_L (++)).
    do 4 f_equal. apply imap_ext. intros k kv _. unfold compose. f_equal. lia.
Qed.

Lemma print_groups_app rt fs i items1 items2 out :
  (∀ out line, stdout_error rt out line = None) →
  Forall (λ kv, Forall (λ p, is_Some (maybe inr (os_path_getsize fs p))) kv.2) items1 →
  print_groups rt fs i (items1 ++ items2) out =
  print_groups rt fs (i + length items1) items2
    (out ++ concat (imap (λ k kv, group_lines (i + k) kv.1 kv.2 (total_size fs kv.2)) items1)).
Proof.
  intros Haccept Hall. revert i out.
  induction Hall as [|[h paths] items Hpaths _ IH]; intros i out.
  - cbn. by rewrite Nat.add_0_r, (right_id_L [] (++)).
  - cbn [app print_groups]. rewrite sum_sizes_Return by done.
    rewrite print_lines_accept by done. rewrite IH.
    cbn [imap concat fst snd length]. rewrite Nat.add_0_r, Z.add_0_l, <-(assoc_L (++)).
    f_equal; [lia|]. do 3 f_equal. apply imap_ext. intros k kv _. unfold compose. f_equal. lia.
Qed.

Lemma length_group_lines i h paths total :
  length (group_lines i h paths total) = 4 + length paths.
Proof. unfold group_lines. by rewrite length_app, length_fmap. Qed.

Lemma length_report_lines fs items :
  length (report_lines fs items) = 4 * length items + length (concat items.*2).
Proof.
  unfold report_lines.
  enough (∀ i, length (concat (imap (λ k kv, group_lines (i + k) kv.1 kv.2
                                       (total_size fs kv.2)) items))
               = 4 * length items + length (concat items.*2)) as Hgen by apply (Hgen 1).
  induction items as [|[h paths] items IH]; intros i; [done|].
  cbn [imap concat fmap list_fmap length snd fst].
  rewrite !length_app, length_group_lines.
  erewrite imap_ext; [rewrite (IH (S i))|]; [lia|].
  intros k kv _. unfold compose. f_equal. lia.
Qed.

Lemma print_duplicates_Return rt fs self items :
  (∀ out line, stdout_error rt out line = None) →
  Forall (λ kv, Forall (λ p, is_Some (maybe inr (os_path_getsize fs p))) kv.2) items →
  print_duplicates rt fs self items =
  (Return (),
   [(INFO, if decide (items = []) then "Дубликаты не найдены."
           else "Найдено " +:+ pretty (length items) +:+ " групп дубликатов:")],
   report_lines fs items).
Proof.
  intros Haccept Hall. unfold print_duplicates. destruct items as [|kv items]; [done|].
  by rewrite print_groups_Return.
Qed.

(** X9. When the standard output takes every line and the size of every
    listed path can be read, [print_duplicates] returns.  For no group it
    logs that nothing was found and prints nothing.  Otherwise it logs the
    number of groups and prints, for the groups in order and numbered
    from 1, four header lines (number, fingerprint, member count, summed
    size) and one line for each path: [4 * groups + paths] lines in
    all. *)
Theorem print_duplicates_report rt fs self items :
  (∀ out line, stdout_error rt out line = None) →
  Forall (λ kv, Forall (λ p, is_Some (maybe inr (os_path_getsize fs p))) kv.2) items →
  print_duplicates rt fs self items =
  (Return (),
   [(INFO, if decide (items = []) then "Дубликаты не найдены."
           else "Найдено " +:+ pretty (length items) +:+ " групп дубликатов:")],
   report_lines fs items) ∧
  length (report_lines fs items) = 4 * length items + length (concat items.*2).
Proof.
  intros Haccept Hall.
  split; [by apply print_duplicates_Return|apply length_report_lines].
Qed.

(** X10. When the standard output takes every line and the size of a
    listed path cannot be read (the file is gone since the scan),
    [print_duplicates] raises the error of the first such path, after
    logging the number of groups and printing the complete blocks of the
    groups before it, and nothing of its own group. *)
Theorem print_duplicates_vanished_file rt fs self items1 h ps1 p ps2 items2 err :
  (∀ out line, stdout_error rt out line = None) →
  Forall (λ kv, Forall (λ p, is_Some (maybe inr (os_path_getsize fs p))) kv.2) items1 →
  Forall (λ p, is_Some (maybe inr (os_path_getsize fs p))) ps1 →
  os_path_getsize fs p = inl err →
  print_duplicates rt fs self (items1 ++ (h, ps1 ++ p :: ps2) :: items2) =
  (Raise (os_exception err),
   [(INFO, "Найдено " +:+ pretty (length (items1 ++ (h, ps1 ++ p :: ps2) :: items2))
           +:+ " групп дубликатов:")],
   report_lines fs items1).
Proof.
  intros Haccept Hitems Hps Hp. unfold print_duplicates.
  destruct (items1 ++ _ :: items2) as [|kv items] eqn:Heq.
  { by destruct items1. }
  rewrite <-Heq, print_groups_app by done. cbn [print_groups].
  by rewrite (sum_sizes_Raise _ _ _ _ err).
Qed.

Lemma round_half_even_nearest (num den : Z) :
  (0 ≤ num)%Z → (0 < den)%Z →
  (Z.abs (round_half_even num den * den - num) * 2 ≤ den)%Z.
Proof.
  intros Hnum Hden. unfold round_half_even.
  pose proof (Z.div_mod num den ltac:(lia)) as Hdiv.
  pose proof (Z.mod_pos_bound num den Hden) as Hmod.
  destruct ((den <? 2 * (num mod den))%Z || _) eqn:Hup.
  - apply orb_true_iff in Hup as [Hup%Z.ltb_lt|[Hup%Z.eqb_eq _]%andb_true_iff]; nia.
  - apply orb_false_iff in Hup as [Hup%Z.ltb_ge _]. nia.
Qed.

Lemma round53_exact (n : Z) : (0 ≤ n < 2 ^ 53)%Z → round53 n = n.
Proof.
  intros [Hlo Hhi]. unfold round53.
  destruct (decide (n = 0%Z)) as [->|Hne]; [done|].
  assert (Z.log2 n < 53)%Z by (apply Z.log2_lt_pow2; lia).
  by rewrite (proj2 (Z.leb_le _ _)) by lia.
Qed.

Lemma two_digits_length (m : Z) :
  (0 ≤ m < 100)%Z → String.length (two_digits m) = 2.
Proof.
  intros Hm.
  assert (Forall (λ m, String.length (two_digits m) = 2) (seqZ 0 100)) as Hall
    by (apply (bool_decide_unpack _); by vm_compute).
  rewrite Forall_forall in Hall. apply Hall, elem_of_seqZ. lia.
Qed.

(** X11. For a total size below [2^53] bytes the figure printed on the
    size line is the total in units of [2^20] bytes rounded to the
    nearest hundredth: it is off by at most half a hundredth, and it is
    printed with exactly two decimals. *)
Theorem format_mb_nearest_hundredth (total : Z) :
  (0 ≤ total < 2 ^ 53)%Z →
  (Z.abs (hundredths_mb total * 2 ^ 20 - 100 * total) * 2 ≤ 2 ^ 20)%Z ∧
  format_mb total =
    pretty (Z.to_N (hundredths_mb total / 100)) +:+ "."
    +:+ two_digits (hundredths_mb total mod 100) ∧
  String.length (two_digits (hundredths_mb total mod 100)) = 2.
Proof.
  intros Htotal. unfold hundredths_mb.
  rewrite (Z.abs_eq total), round53_exact by lia. split_and!.
  - change (2 ^ 20)%Z with (1024 * 1024)%Z.
    apply (round_half_even_nearest (100 * total) (1024 * 1024)); lia.
  - unfold format_mb, hundredths_mb. rewrite (Z.abs_eq total), round53_exact by lia.
    by rewrite (proj2 (Z.ltb_ge _ _)) by lia.
  - apply two_digits_length, Z.mod_pos_bound. lia.
Qed.

(** ** main *)

Lemma os_exception_Exception (e : os_error) : isinstance (os_exception e) Exception = true.
Proof. by destruct e as [[] ?]. Qed.

Lemma ordered_groups_sizes fs self :
  Forall (λ kv, Forall (λ p, is_Some (maybe inr (os_path_getsize fs p))) kv.2)
         (ordered_groups fs self (candidates fs self)).
Proof.
  apply Forall_forall. intros [h paths] [-> _]%elem_of_ordered_groups.
  apply Forall_forall. intros p [_ Hp]%elem_of_bucket.
  apply elem_of_candidates in Hp as (e & _ & <- & Hpass).
  apply passes_filter_true in Hpass as (size & -> & _). by eexists.
Qed.

Lemma mapM_fmap_Some_ext {A B} (f : A → option B) (g : A → B) (l : list A) :
  Forall (λ x, f x = Some (g x)) l → mapM f l = Some (g <$> l).
Proof.
  induction 1 as [|x l Hx _ IH]; [done|].
  cbn. by rewrite Hx, IH.
Qed.

Lemma executor_map_fmap {A B} (f : A → B * list log_record) (xs : list A)
    (sched : list nat) :
  executor_map id (f <$> xs) sched = executor_map f xs sched.
Proof.
  unfold executor_map. rewrite length_fmap.
  assert (omap (λ i, (λ x, (i, id x)) <$> (f <$> xs) !! i)
               (completion_order (length xs) sched)
          = omap (λ i, (λ x, (i, f x)) <$> xs !! i)
                 (completion_order (length xs) sched)) as ->; [|done].
  apply omap_ext_in. intros i _. rewrite list_lookup_fmap.
  by destruct (xs !! i).
Qed.

(** On regular files the scan that [main] runs is the scan of the
    class. *)
Lemma find_duplicate_files_call_ordered rt fs self sched :
  alloc_error rt 8192 = None →
  Forall (λ p, has_nul p = false ∧ open_blocks rt p = false ∧ endless rt p = false)
         (candidates fs self) →
  find_duplicate_files_call rt fs self sched
  = Some (find_duplicate_files_ordered fs self sched).
Proof.
  intros Halloc Hregular.
  unfold find_duplicate_files_call, find_duplicate_files_ordered.
  rewrite scan_walk_entries.
  destruct (scan_entries fs self _ []) as [files|ex] eqn:Hscan; [|done].
  apply scan_entries_Return in Hscan as [_ Hfiles].
  rewrite app_nil_l in Hfiles. fold (candidates fs self) in Hfiles. subst files.
  rewrite (mapM_fmap_Some_ext _ (λ p, calculate_hash fs self p default_chunk_size)).
  - cbn [mbind option_bind]. rewrite executor_map_fmap.
    destruct (executor_map _ (candidates fs self) sched) as [futures log].
    by destruct (results_of futures).
  - eapply Forall_impl; [exact Hregular|]. intros p (Hnul & Hopens & Hends).
    by rewrite calculate_hash_call_inner.
Qed.

Lemma calculate_hash_call_no_raise rt fs self p cs e log :
  has_nul p = false → alloc_error rt cs = None →
  calculate_hash_call rt fs self p cs ≠ Some (Raise e, log).
Proof.
  intros Hnul Halloc. unfold calculate_hash_call. rewrite Hnul, Halloc.
  destruct (open_rb fs p) as [err|f]; [by rewrite except_clauses_os_error|].
  destruct (open_blocks rt p); [done|].
  destruct (endless rt p && (0 <? cs)%N); [done|].
  destruct (calculate_hash_Return fs self p (N.to_nat cs)) as [o Ho].
  intros [= Hcall]. rewrite Hcall in Ho. done.
Qed.

Lemma results_of_all_Return {A} (rs : list (result A)) :
  Forall (λ r, ∃ a, r = Return a) rs → ∃ l, results_of rs = Return l.
Proof.
  induction 1 as [|r rs [a ->] _ [l IH]]; [by eexists|].
  cbn [results_of]. rewrite IH. by eexists.
Qed.

(** C4 (as amended). For a path of the file system without NUL character
    and a chunk size whose buffer can be allocated, [calculate_hash] never
    raises.  When
    opening fails with a permission error it returns [None] and logs one
    warning; when it fails with any other I/O error it returns [None] and
    logs one error record with the detail.  For a regular file the call
    returns, and a failure of reading is handled like one of opening.
    Hence a scan whose walk has completed is not ended by an exception
    of the hashing, and it returns when every candidate is a regular
    file. *)
Theorem calculate_hash_call_handles_io_errors rt fs self cs :
  alloc_error rt cs = None →
  (∀ p, has_nul p = false →
     (∀ e log, calculate_hash_call rt fs self p cs ≠ Some (Raise e, log)) ∧
     (∀ err, open_rb fs p = inl err →
        calculate_hash_call rt fs self p cs =
        Some (Return None,
              [if bool_decide (err_no err = EPERM ∨ err_no err = EACCES)
               then (WARNING, "Нет доступа к файлу: " +:+ p)
               else (ERROR, "Ошибка при чтении файла " +:+ p +:+ ": "
                            +:+ err_str err)])) ∧
     (open_blocks rt p = false → endless rt p = false →
        (∃ o log, calculate_hash_call rt fs self p cs = Some (Return o, log)) ∧
        ∀ f err,
          open_rb fs p = inr f →
          read_loop (S (length (f_data f))) f (N.to_nat cs) sha256_new
            = Raise (os_exception err) →
          calculate_hash_call rt fs self p cs =
          Some (Return None,
                [if bool_decide (err_no err = EPERM ∨ err_no err = EACCES)
                 then (WARNING, "Нет доступа к файлу: " +:+ p)
                 else (ERROR, "Ошибка при чтении файла " +:+ p +:+ ": "
                              +:+ err_str err)]))) ∧
  (∀ sched files_to_check,
     alloc_error rt 8192 = None →
     scan_walk fs self (os_walk fs (directory self)) [] = Return files_to_check →
     Forall (λ p, has_nul p = false) files_to_check →
     (∀ ex log, find_duplicate_files_call rt fs self sched ≠ Some (Raise ex, log)) ∧
     (Forall (λ p, open_blocks rt p = false ∧ endless rt p = false) files_to_check →
      ∃ items log,
        find_duplicate_files_call rt fs self sched = Some (Return items, log))).
Proof.
  intros Halloc. split.
  - intros p Hnul. split_and!.
    + intros e log. by apply calculate_hash_call_no_raise.
    + intros err Hopen. unfold calculate_hash_call.
      by rewrite Hnul, Hopen, except_clauses_os_error.
    + intros Hopens Hends. rewrite calculate_hash_call_inner by done. split.
      * destruct (calculate_hash_Return fs self p (N.to_nat cs)) as [o Ho].
        destruct (calculate_hash fs self p (N.to_nat cs)) as [r log].
        cbn [fst] in Ho. subst r. by exists o, log.
      * intros f err Hopen Hread. f_equal. apply calculate_hash_os_error.
        unfold hash_body. by rewrite Hopen, Hread.
  - intros sched files Halloc' Hwalk Hnul. split.
    + intros ex log. unfold find_duplicate_files_call. rewrite Hwalk.
      destruct (mapM _ files) as [tasks|] eqn:Htasks; [|done].
      cbn [mbind option_bind]. apply mapM_Some_1 in Htasks.
      pose proof (executor_map_results id tasks sched) as Hres.
      destruct (executor_map id tasks sched) as [futures log']. cbn [fst] in Hres.
      destruct (results_of_all_Return futures) as [l ->]; [|done].
      subst futures. apply Forall_fmap, Forall_forall. intros [r lg] Ht.
      apply list_elem_of_lookup in Ht as [i Hi].
      destruct (Forall2_lookup_r _ _ _ _ _ Htasks Hi) as (q & Hq & Hcall).
      destruct r as [o|e]; [by exists o|].
      destruct (calculate_hash_call_no_raise rt fs self q 8192 e lg); [|done..].
      by apply (Forall_lookup_1 _ _ _ _ Hnul Hq).
    + intros Hregular.
      assert (files = candidates fs self) as ->.
      { rewrite scan_walk_entries in Hwalk.
        apply scan_entries_Return in Hwalk as [_ Hfiles].
        by rewrite app_nil_l in Hfiles. }
      rewrite find_duplicate_files_call_ordered, find_duplicate_files_ordered_eq.
      * rewrite scan_walk_entries in Hwalk. rewrite Hwalk. by do 2 eexists.
      * done.
      * apply Forall_forall. intros q Hq. split_and!.
        -- by eapply Forall_forall in Hnul.
        -- by eapply Forall_forall in Hregular as [??].
        -- by eapply Forall_forall in Hregular as [??].
Qed.

Lemma calculate_hash_call_handles_io_errors_witness :
  calculate_hash_call Sample.rt Sample.fs Sample.finder "/data/sub/locked" 8192
  = Some (Return None, [(WARNING, "Нет доступа к файлу: /data/sub/locked")]) ∧
  calculate_hash_call Sample.rt Sample.fs Sample.finder "/data/sub/bad" 8192
  = Some (Return None,
          [(ERROR, "Ошибка при чтении файла /data/sub/bad: [Errno 5] Input/output error")]) ∧
  ∃ items log,
    find_duplicate_files_call Sample.rt Sample.fs Sample.finder [2; 0]
    = Some (Return items, log).
Proof.
  pose proof (calculate_hash_call_handles_io_errors Sample.rt Sample.fs
                Sample.finder 8192 eq_refl) as [Hcall Hscan].
  split_and!.
  - apply (proj1 (proj2 (Hcall "/data/sub/locked" eq_refl))
             (mk_os_error EACCES "[Errno 13] Permission denied: '/data/sub/locked'")).
    reflexivity.
  - apply (proj2 (proj2 (proj2 (Hcall "/data/sub/bad" eq_refl)) eq_refl eq_refl)
             (mk_file Sample.hello
                (Some (0, mk_os_error EIO "[Errno 5] Input/output error")))
             (mk_os_error EIO "[Errno 5] Input/output error"));
      reflexivity.
  - apply (Hscan [2; 0]
             ["/data/a.txt"; "/data/c.txt"; "/data/b.txt";
              "/data/sub/d2.tmp"; "/data/sub/locked"]).
    + reflexivity.
    + by vm_compute.
    + repeat constructor.
    + repeat constructor.
Defined.

(** C4 as stated fails: for a path with a NUL character [open] raises
    [ValueError], which no [except] clause catches, and [calculate_hash]
    raises it to its caller. *)
Lemma calculate_hash_call_embedded_null :
  calculate_hash_call Sample.rt Sample.fs Sample.finder Sample.nul_path 8192
  = Some (Raise (mk_exception ValueError "embedded null byte"), []).
Proof. by vm_compute. Qed.

(** So does a chunk size that does not fit the read buffer, for a file
    that can be opened; for a file that cannot, [open] fails first. *)
Example calculate_hash_call_overflow :
  calculate_hash_call Sample.rt Sample.fs Sample.finder "/data/a.txt" (2 ^ 63)
  = Some (Raise (mk_exception OverflowError
                   "cannot fit 'int' into an index-sized integer"), []) ∧
  calculate_hash_call Sample.rt Sample.fs Sample.finder "/data/a.txt" (2 ^ 63 - 1)
  = Some (Raise (mk_exception OverflowError "byte string is too large"), []) ∧
  calculate_hash_call Sample.rt Sample.fs Sample.finder "/data/missing" (2 ^ 63)
  = Some (Return None,
          [(ERROR, "Ошибка при чтении файла /data/missing: "
                   +:+ "[Errno 2] No such file or directory: '/data/missing'")]).
Proof. split_and!; by vm_compute. Qed.

(** On a FIFO without writer the call does not return; on an endless
    device it returns only for chunk size 0, or raises when the buffer
    cannot be allocated. *)
Example calculate_hash_call_special :
  calculate_hash_call Sample.rt Sample.fs_special Sample.finder "/data/pipe" 8192
  = None ∧
  calculate_hash_call Sample.rt Sample.fs_special Sample.finder "/data/zero" 8192
  = None ∧
  calculate_hash_call Sample.rt Sample.fs_special Sample.finder "/data/zero" 0
  = Some (Return (Some (SHA256.hexdigest [])), []) ∧
  calculate_hash_call Sample.rt Sample.fs_special Sample.finder "/data/zero" (2 ^ 63)
  = Some (Raise (mk_exception OverflowError
                   "cannot fit 'int' into an index-sized integer"), []).
Proof. split_and!; by vm_compute. Qed.

(** X12. [main] on a runtime whose standard output takes every line,
    where the directory of the command line has an absolute path, the
    read buffer of 8192 bytes can be allocated and every candidate is a
    regular file at a path without NUL character, and on files that stay
    as they are during the run.  [main] ends in one of two ways.  If the
    scan raises, it prints the error message and exits with status 1,
    with nothing logged.  Otherwise the report does not fail: [main]
    returns after logging the records of the scan and the number of
    groups, and printing the report of the groups in insertion order. *)
Theorem main_outcome rt fs cl sched :
  (∀ out line, stdout_error rt out line = None) →
  abspath_error rt (cl_directory cl) = None →
  alloc_error rt 8192 = None →
  Forall (λ p, has_nul p = false ∧ open_blocks rt p = false ∧ endless rt p = false)
         (candidates fs (main_finder fs cl)) →
  match (find_duplicate_files fs (main_finder fs cl) sched).1 with
  | Raise ex =>
      main rt fs cl sched
      = Some (SystemExit 1, [], ["Произошла ошибка: " +:+ exc_str ex])
  | Return d =>
      ∃ items,
        (find_duplicate_files_ordered fs (main_finder fs cl) sched).1 = Return items ∧
        d = list_to_map items ∧
        main rt fs cl sched =
          Some (Returns,
                (find_duplicate_files fs (main_finder fs cl) sched).2 ++
                [(INFO, if decide (items = []) then "Дубликаты не найдены."
                        else "Найдено " +:+ pretty (length items)
                             +:+ " групп дубликатов:")],
                report_lines fs items)
  end.
Proof.
  intros Haccept Habs Halloc Hregular.
  pose proof (ordered_result_is_the_mapping fs (main_finder fs cl) sched) as Hmap.
  unfold main. rewrite Habs, find_duplicate_files_call_ordered by done.
  rewrite find_duplicate_files_ordered_eq in *.
  set (self := main_finder fs cl) in *.
  destruct (scan_entries fs self _ []) as [files|ex] eqn:Hscan.
  - rewrite Hmap. cbn [fst snd]. exists (ordered_groups fs self files).
    split_and!; [done..|].
    apply scan_entries_Return in Hscan as [_ Hfiles].
    rewrite app_nil_l in Hfiles. fold (candidates fs self) in Hfiles. subst files.
    by rewrite (print_duplicates_Return rt fs self _ Haccept (ordered_groups_sizes fs self)).
  - rewrite Hmap. cbn [fst]. apply scan_entries_Raise in Hscan as (_ & _ & _ & err & _ & _ & _ & ->).
    unfold main_handler, print_line. by rewrite os_exception_Exception, Haccept.
Qed.

(** ** The further properties on the sample directory *)

Example main_on_sample :
  main Sample.rt Sample.fs (mk_command_line "/data" None (Some 1%Z)) [2]
  = Some (Returns,
          [(WARNING, "Нет доступа к файлу: /data/sub/locked");
           (INFO, "Найдено 1 групп дубликатов:")],
          report_lines Sample.fs Sample.items) ∧
  main Sample.rt Sample.fs (mk_command_line "/data" None None) []
  = Some (Returns, [(INFO, "Дубликаты не найдены.")], []) ∧
  main Sample.rt Sample.fs_dangling (mk_command_line "/data" None None) []
  = Some (SystemExit 1, [],
          ["Произошла ошибка: [Errno 2] No such file or directory: '/data/link'"]).
Proof. split_and!; by vm_compute. Qed.

(** A standard output that refuses a line ends the report: [main] prints
    the message of the exception and exits with status 1. *)
Example main_on_narrow_console :
  main Sample.rt_narrow_console Sample.fs (mk_command_line "/data" None (Some 1%Z)) [2]
  = Some (SystemExit 1,
          [(WARNING, "Нет доступа к файлу: /data/sub/locked");
           (INFO, "Найдено 1 групп дубликатов:")],
          take 5 (report_lines Sample.fs Sample.items)
          ++ ["Произошла ошибка: 'utf-8' codec can't encode characters"]).
Proof. by vm_compute. Qed.

(** With [--min-size 0] the FIFO and the device are candidates and [main]
    does not end; with the default minimum they are left out.  A relative
    directory after the current directory is gone ends [main] at once. *)
Example main_on_special_files :
  main Sample.rt Sample.fs_special (mk_command_line "/data" None (Some 0%Z)) [] = None ∧
  main Sample.rt Sample.fs_special (mk_command_line "/data" None None) []
  = Some (Returns, [(INFO, "Дубликаты не найдены.")], []) ∧
  main Sample.rt_no_cwd Sample.fs (mk_command_line "data" None None) []
  = Some (SystemExit 1, [], ["Произошла ошибка: [Errno 2] No such file or directory"]).
Proof. split_and!; by vm_compute. Qed.

Lemma main_outcome_witness :
  main Sample.rt Sample.fs_dangling (mk_command_line "/data" None None) [1]
  = Some (SystemExit 1, [],
          ["Произошла ошибка: "
           +:+ exc_str (mk_exception FileNotFoundError
                          "[Errno 2] No such file or directory: '/data/link'")]) ∧
  ∃ items,
    (find_duplicate_files_ordered Sample.fs
       (main_finder Sample.fs (mk_command_line "/data" None (Some 1%Z))) [2]).1
    = Return items ∧
    Sample.groups = list_to_map items ∧
    main Sample.rt Sample.fs (mk_command_line "/data" None (Some 1%Z)) [2] =
      Some (Returns,
            (find_duplicate_files Sample.fs
               (main_finder Sample.fs (mk_command_line "/data" None (Some 1%Z))) [2]).2 ++
            [(INFO, if decide (items = []) then "Дубликаты не найдены."
                    else "Найдено " +:+ pretty (length items)
                         +:+ " групп дубликатов:")],
            report_lines Sample.fs items).
Proof.
  split.
  - refine (main_outcome Sample.rt Sample.fs_dangling
              (mk_command_line "/data" None None) [1] (λ _ _, eq_refl) eq_refl eq_refl _).
    by vm_compute.
  - pose proof (main_outcome Sample.rt Sample.fs
                  (mk_command_line "/data" None (Some 1%Z)) [2]
                  (λ _ _, eq_refl) eq_refl eq_refl) as Hmain.
    assert ((find_duplicate_files Sample.fs
               (main_finder Sample.fs (mk_command_line "/data" None (Some 1%Z))) [2]).1
            = Return Sample.groups) as Hd by by_vm_cast.
    rewrite Hd in Hmain. apply Hmain. vm_compute. repeat constructor.
Defined.

Lemma scan_logs_each_unreadable_candidate_witness :
  (find_duplicate_files Sample.fs Sample.finder [2]).2 ≡ₚ
    concat ((λ p, (calculate_hash Sample.fs Sample.finder p default_chunk_size).2)
              <$> candidates Sample.fs Sample.finder) ∧
  ((calculate_hash Sample.fs Sample.finder "/data/sub/locked" default_chunk_size).2
   = [(WARNING, "Нет доступа к файлу: " +:+ "/data/sub/locked")] ∨
   ∃ detail,
     (calculate_hash Sample.fs Sample.finder "/data/sub/locked" default_chunk_size).2
     = [(ERROR, "Ошибка при чтении файла " +:+ "/data/sub/locked" +:+ ": " +:+ detail)]).
Proof.
  assert ((find_duplicate_files Sample.fs Sample.finder [2]).1 = Return Sample.groups)
    as Hd by by_vm_cast.
  destruct (scan_logs_each_unreadable_candidate Sample.fs Sample.finder [2]
              Sample.groups Hd) as [Hlog Heach].
  split; [exact Hlog|]. exact (Heach "/data/sub/locked").
Defined.

Lemma scan_raises_first_size_error_witness :
  find_duplicate_files Sample.fs_dangling Sample.finder [1]
  = (Raise (os_exception (Sample.no_entry "/data/link")), []).
Proof.
  apply (scan_raises_first_size_error Sample.fs_dangling Sample.finder [1]
           [("/data", "a.txt")] ("/data", "link") [("/data", "b.txt")]
           (Sample.no_entry "/data/link")).
  - by vm_compute.
  - sizes_known.
  - by vm_compute.
Defined.

Lemma scan_without_candidates_witness :
  find_duplicate_files Sample.fs (__init__ Sample.fs "/nowhere" None None) [1; 0]
  = (Return ∅, []).
Proof.
  apply (scan_without_candidates Sample.fs (__init__ Sample.fs "/nowhere" None None) [1; 0]).
  apply Forall_nil_2.
Defined.

Lemma stricter_filter_shrinks_groups_witness :
  ∃ d2, (find_duplicate_files Sample.fs Sample.finder_strict [1]).1 = Return d2 ∧
    ∀ h paths2, d2 !! h = Some paths2 →
      ∃ paths1, Sample.groups !! h = Some paths1 ∧ paths2 `sublist_of` paths1.
Proof.
  apply (stricter_filter_shrinks_groups Sample.fs Sample.finder Sample.finder_strict
           [] [1] Sample.groups).
  - reflexivity.
  - by vm_compute.
  - intros pattern Hin. vm_compute in Hin. by apply elem_of_nil in Hin.
  - by_vm_cast.
Defined.

Lemma ordered_result_in_discovery_order_witness :
  Sample.items =
    filter (λ kv, 1 < length kv.2)
      ((λ h, (h, bucket Sample.fs Sample.finder (candidates Sample.fs Sample.finder) h)) <$>
         first_occurrences
           (omap (file_hash Sample.fs Sample.finder) (candidates Sample.fs Sample.finder))) ∧
  NoDup Sample.items.*1.
Proof.
  apply (ordered_result_in_discovery_order Sample.fs Sample.finder [3]).
  by vm_compute.
Defined.

Lemma print_duplicates_report_witness :
  print_duplicates Sample.rt Sample.fs Sample.finder Sample.items =
  (Return (),
   [(INFO, if decide (Sample.items = []) then "Дубликаты не найдены."
           else "Найдено " +:+ pretty (length Sample.items) +:+ " групп дубликатов:")],
   report_lines Sample.fs Sample.items) ∧
  length (report_lines Sample.fs Sample.items)
  = 4 * length Sample.items + length (concat Sample.items.*2).
Proof.
  apply (print_duplicates_report Sample.rt Sample.fs Sample.finder Sample.items).
  - reflexivity.
  - unfold Sample.items. sizes_known.
Defined.

Lemma print_duplicates_vanished_file_witness :
  print_duplicates Sample.rt Sample.fs_dangling Sample.finder
    (Sample.items ++ [("0000", ["/data/a.txt"] ++ ["/data/link"; "/data/b.txt"])])
  = (Raise (os_exception (Sample.no_entry "/data/link")),
     [(INFO, "Найдено "
             +:+ pretty (length (Sample.items ++
                   [("0000", ["/data/a.txt"] ++ ["/data/link"; "/data/b.txt"])]))
             +:+ " групп дубликатов:")],
     report_lines Sample.fs_dangling Sample.items).
Proof.
  apply (print_duplicates_vanished_file Sample.rt Sample.fs_dangling Sample.finder
           Sample.items "0000" ["/data/a.txt"] "/data/link" ["/data/b.txt"] []
           (Sample.no_entry "/data/link")).
  - reflexivity.
  - unfold Sample.items. sizes_known.
  - sizes_known.
  - by vm_compute.
Defined.

Lemma format_mb_nearest_hundredth_witness :
  (Z.abs (hundredths_mb 393216 * 2 ^ 20 - 100 * 393216) * 2 ≤ 2 ^ 20)%Z ∧
  format_mb 393216 =
    pretty (Z.to_N (hundredths_mb 393216 / 100)) +:+ "."
    +:+ two_digits (hundredths_mb 393216 mod 100) ∧
  String.length (two_digits (hundredths_mb 393216 mod 100)) = 2.
Proof. apply (format_mb_nearest_hundredth 393216). lia. Defined.

Lemma read_failure_isolated_witness :
  ∃ d', (find_duplicate_files Sample.fs_unreadable Sample.finder [2]).1 = Return d' ∧
    ∀ h paths', d' !! h = Some paths' ↔
      paths' = filter (λ p, p ≠ "/data/sub/d2.tmp")
                 (bucket Sample.fs Sample.finder (candidates Sample.fs Sample.finder) h) ∧
      1 < length paths'.
Proof.
  apply (read_failure_isolated Sample.fs Sample.fs_unreadable Sample.finder [] [2]
           "/data/sub/d2.tmp" Sample.groups).
  - intros p. reflexivity.
  - reflexivity.
  - intros p Hp. unfold Sample.fs_unreadable. cbn [open_rb].
    by rewrite bool_decide_false.
  - by vm_compute.
  - by_vm_cast.
Defined.


(** ** Which paths are reported *)

Lemma filter_two_split {A} (P : A → Prop) `{∀ x, Decision (P x)} (l : list A) :
  1 < length (filter P l) ↔
  ∃ l1 x l2 y l3, l = l1 ++ x :: l2 ++ y :: l3 ∧ P x ∧ P y.
Proof.
  split.
  - induction l as [|a l IH]; [cbn; lia|].
    rewrite filter_cons. destruct (decide (P a)) as [Ha|Ha].
    + cbn [length]. intros Hlen.
      destruct (filter P l) as [|y k] eqn:Hfilter; [cbn in Hlen; lia|].
      assert (y ∈ filter P l) as [Hy Hin]%list_elem_of_filter by (rewrite Hfilter; left).
      apply list_elem_of_split in Hin as (l2 & l3 & ->).
      by exists [], a, l2, y, l3.
    + intros (l1 & x & l2 & y & l3 & -> & Hx & Hy)%IH.
      by exists (a :: l1), x, l2, y, l3.
  - intros (l1 & x & l2 & y & l3 & -> & Hx & Hy).
    rewrite filter_app, filter_cons, decide_True by done.
    rewrite filter_app, filter_cons, decide_True by done.
    rewrite length_app. cbn [length]. rewrite length_app. cbn [length]. lia.
Qed.

(** X13. Completeness of the result: a path is reported, in a group,
    exactly when it is a candidate, [calculate_hash] returned a digest for
    it, and two positions of the candidate list carry that digest. *)
Theorem reported_iff_shared_digest fs self sched d p :
  (find_duplicate_files fs self sched).1 = Return d →
  (∃ h paths, d !! h = Some paths ∧ p ∈ paths) ↔
  p ∈ candidates fs self ∧
  ∃ h, (calculate_hash fs self p default_chunk_size).1 = Return (Some h) ∧
    ∃ l1 x l2 y l3,
      candidates fs self = l1 ++ x :: l2 ++ y :: l3 ∧
      (calculate_hash fs self x default_chunk_size).1 = Return (Some h) ∧
      (calculate_hash fs self y default_chunk_size).1 = Return (Some h).
Proof.
  intros Hd. setoid_rewrite <-file_hash_calculate_hash. split.
  - intros (h & paths & [-> Hlen]%(find_duplicate_files_lookup _ _ _ _ _ _ Hd) & Hin).
    apply elem_of_bucket in Hin as [Hp Hin]. split; [done|]. exists h. split; [done|].
    by apply filter_two_split in Hlen.
  - intros (Hin & h & Hp & Hsplit).
    exists h, (bucket fs self (candidates fs self) h). split.
    + apply (find_duplicate_files_lookup _ _ _ _ _ _ Hd). split; [done|].
      by apply filter_two_split.
    + by apply elem_of_bucket.
Qed.

(** X14. Every key of the returned mapping is a digest of 64 characters,
    and it is the SHA-256 hex digest of the whole content of each file of
    its group, as the file was read during the scan. *)
Theorem keys_are_content_digests fs self sched d h paths :
  (find_duplicate_files fs self sched).1 = Return d →
  d !! h = Some paths →
  String.length h = 64 ∧
  ∀ p, p ∈ paths → ∃ f, open_rb fs p = inr f ∧ h = SHA256.hexdigest (f_data f).
Proof.
  intros Hd [-> Hlen]%(find_duplicate_files_lookup _ _ _ _ _ _ Hd).
  assert (∀ p, p ∈ bucket fs self (candidates fs self) h →
            ∃ f, open_rb fs p = inr f ∧ h = SHA256.hexdigest (f_data f)) as Hall.
  { intros p [Hp _]%elem_of_bucket. by apply (file_hash_Some fs self). }
  split; [|done].
  destruct (bucket fs self (candidates fs self) h) as [|p ps]; [cbn in Hlen; lia|].
  destruct (Hall p) as (f & _ & ->); [left|]. apply hexdigest_length.
Qed.

Lemma reported_iff_shared_digest_witness :
  (∃ h paths, Sample.groups !! h = Some paths ∧ "/data/c.txt" ∈ paths) ↔
  "/data/c.txt" ∈ candidates Sample.fs Sample.finder ∧
  ∃ h, (calculate_hash Sample.fs Sample.finder "/data/c.txt" default_chunk_size).1
         = Return (Some h) ∧
    ∃ l1 x l2 y l3,
      candidates Sample.fs Sample.finder = l1 ++ x :: l2 ++ y :: l3 ∧
      (calculate_hash Sample.fs Sample.finder x default_chunk_size).1 = Return (Some h) ∧
      (calculate_hash Sample.fs Sample.finder y default_chunk_size).1 = Return (Some h).
Proof.
  apply (reported_iff_shared_digest Sample.fs Sample.finder [] Sample.groups "/data/c.txt").
  by_vm_cast.
Defined.

Lemma keys_are_content_digests_witness :
  String.length Sample.hello_digest = 64 ∧
  ∀ p, p ∈ ["/data/a.txt"; "/data/b.txt"; "/data/sub/d2.tmp"] →
    ∃ f, open_rb Sample.fs p = inr f ∧ Sample.hello_digest = SHA256.hexdigest (f_data f).
Proof.
  apply (keys_are_content_digests Sample.fs Sample.finder [] Sample.groups).
  - by_vm_cast.
  - by vm_compute.
Defined.
